(** * Route guard, role permissions and middleware chaining

    A shallow embedding of the TypeScript snippets published by the
    documentation site: the [RoleBaseRoute] component (role based routing),
    the [ROLES] table with [hasPermission], and [chainMiddleware].

    JavaScript strings are sequences of UTF-16 code units; they are modelled
    as [list Z], every element standing for one code unit (0 .. 65535). *)

From Stdlib Require Import ZArith List Bool Lia.
From Stdlib Require Import Ascii String.
From stdpp Require Import base decidable list option numbers countable gmap.

Local Open Scope Z_scope.

(** ** JavaScript strings *)

Module JS.

Abbreviation jsstring := (list Z).

(** A string literal of the source, as code units (ASCII literals only). *)
Fixpoint lit (s : String.string) : jsstring :=
  match s with
  | EmptyString => []
  | String c r => Z.of_N (N_of_ascii c) :: lit r
  end.

(** [a === b] on strings: same length and same code units. *)
Fixpoint strictEq (a b : jsstring) : bool :=
  match a, b with
  | [], [] => true
  | x :: a', y :: b' => (x =? y) && strictEq a' b'
  | _, _ => false
  end.

(** [s.startsWith(p)]. *)
Fixpoint startsWith (s p : jsstring) : bool :=
  match p, s with
  | [], _ => true
  | y :: p', x :: s' => (x =? y) && startsWith s' p'
  | _ :: _, [] => false
  end.

(** [s.endsWith(p)]: the last [length p] code units of [s] are [p]. *)
Definition endsWith (s p : jsstring) : bool :=
  (length p <=? length s)%nat &&
  strictEq (drop (length s - length p) s) p.

(** [s.replace(pat, rep)] with a string pattern: only the first occurrence
    of [pat] is replaced.  The replacement is taken literally (the source
    only ever passes the empty string, which has no dollar patterns). *)
Fixpoint replace (s pat rep : jsstring) : jsstring :=
  if startsWith s pat then rep ++ drop (length pat) s
  else match s with
       | [] => []
       | c :: s' => c :: replace s' pat rep
       end.

(** [arr.includes(x)] on an array of strings. *)
Definition includes (arr : list jsstring) (x : jsstring) : bool :=
  existsb (fun y => strictEq y x) arr.

(** Truthiness of an optional string: [undefined], [null] and the empty
    string are falsy. *)
Definition truthy (o : option jsstring) : bool :=
  match o with
  | Some (_ :: _) => true
  | _ => false
  end.

(** [o || d] for an optional string [o] and a string [d]. *)
Definition orElse (o : option jsstring) (d : jsstring) : jsstring :=
  match o with
  | Some (c :: s) => c :: s
  | _ => d
  end.

(** Whether the pattern occurs in [s]: the test behind [occursIn]. *)
Fixpoint occurs (pat s : jsstring) : bool :=
  startsWith s pat ||
  match s with
  | [] => false
  | _ :: s' => occurs pat s'
  end.

(** The pattern occurs in [s] at some position. *)
Definition occursIn (pat s : jsstring) : Prop :=
  exists pre post, s = pre ++ pat ++ post.

End JS.

Import JS.

(** ** Unicode transformation formats and percent escapes

    The built-ins used by the component: [encodeURIComponent] (ECMA-262,
    abstract operation Encode) and [URLSearchParams] (URL Standard,
    application/x-www-form-urlencoded parsing, with the Encoding Standard's
    UTF-8 decoder).  Octets are integers 0 .. 255. *)

Module URI.

Definition isLeadingSurrogate (c : Z) : bool := (0xD800 <=? c) && (c <=? 0xDBFF).
Definition isTrailingSurrogate (c : Z) : bool := (0xDC00 <=? c) && (c <=? 0xDFFF).
Definition isCodeUnit (c : Z) : bool := (0 <=? c) && (c <? 0x10000).

(** [s.isWellFormed()]: no lone surrogate. *)
Fixpoint isWellFormed (s : jsstring) : bool :=
  match s with
  | [] => true
  | c :: rest =>
    if isLeadingSurrogate c then
      match rest with
      | d :: rest' => isTrailingSurrogate d && isWellFormed rest'
      | [] => false
      end
    else isCodeUnit c && negb (isTrailingSurrogate c) && isWellFormed rest
  end.

(** UTF16SurrogatePairToCodePoint. *)
Definition surrogatePairToCodePoint (lead trail : Z) : Z :=
  (lead - 0xD800) * 0x400 + (trail - 0xDC00) + 0x10000.

(** The UTF-8 transformation of one code point. *)
Definition utf8Octets (cp : Z) : list Z :=
  if cp <? 0x80 then [cp]
  else if cp <? 0x800 then [0xC0 + cp / 0x40; 0x80 + cp mod 0x40]
  else if cp <? 0x10000 then
    [0xE0 + cp / 0x1000; 0x80 + (cp / 0x40) mod 0x40; 0x80 + cp mod 0x40]
  else
    [0xF0 + cp / 0x40000; 0x80 + (cp / 0x1000) mod 0x40;
     0x80 + (cp / 0x40) mod 0x40; 0x80 + cp mod 0x40].

(** One upper-case hexadecimal digit, as a code unit. *)
Definition hexDigit (d : Z) : Z := if d <? 10 then 48 + d else 55 + d.

(** The escape of one octet: a percent sign and two hexadecimal digits. *)
Definition percentOctet (b : Z) : jsstring := [37; hexDigit (b / 16); hexDigit (b mod 16)].

Definition percentOctets (bs : list Z) : jsstring := flat_map percentOctet bs.

(** uriUnescaped: letters, digits and the marks [- _ . ! ~ * ' ( )]. *)
Definition unescaped (c : Z) : bool :=
  ((65 <=? c) && (c <=? 90)) || ((97 <=? c) && (c <=? 122)) ||
  ((48 <=? c) && (c <=? 57)) ||
  existsb (Z.eqb c) [45; 95; 46; 33; 126; 42; 39; 40; 41].

(** [encodeURIComponent(s)]; [None] stands for the URIError thrown on a
    lone surrogate. *)
Fixpoint encodeURIComponent (s : jsstring) : option jsstring :=
  match s with
  | [] => Some []
  | c :: rest =>
    if unescaped c then option_map (cons c) (encodeURIComponent rest)
    else if isLeadingSurrogate c then
      match rest with
      | d :: rest' =>
        if isTrailingSurrogate d then
          option_map (app (percentOctets (utf8Octets (surrogatePairToCodePoint c d))))
                     (encodeURIComponent rest')
        else None
      | [] => None
      end
    else if isTrailingSurrogate c then None
    else option_map (app (percentOctets (utf8Octets c))) (encodeURIComponent rest)
  end.

(** UTF-8 encode of a string (conversion to scalar values first: a lone
    surrogate becomes U+FFFD). *)
Fixpoint utf8Encode (s : jsstring) : list Z :=
  match s with
  | [] => []
  | c :: rest =>
    if isLeadingSurrogate c then
      match rest with
      | d :: rest' =>
        if isTrailingSurrogate d
        then utf8Octets (surrogatePairToCodePoint c d) ++ utf8Encode rest'
        else utf8Octets 0xFFFD ++ utf8Encode rest
      | [] => utf8Octets 0xFFFD
      end
    else if isTrailingSurrogate c then utf8Octets 0xFFFD ++ utf8Encode rest
    else utf8Octets c ++ utf8Encode rest
  end.

(** The state of the UTF-8 decoder. *)
Record Utf8State := mkUtf8 {
  codePoint : Z;
  bytesSeen : Z;
  bytesNeeded : Z;
  lowerBoundary : Z;
  upperBoundary : Z
}.

Definition utf8Init : Utf8State := mkUtf8 0 0 0 0x80 0xBF.

(** The decoder's handler when no continuation byte is pending. *)
Definition utf8Lead (b : Z) : list Z * Utf8State :=
  if (0 <=? b) && (b <=? 0x7F) then ([b], utf8Init)
  else if (0xC2 <=? b) && (b <=? 0xDF) then
    ([], mkUtf8 (Z.land b 0x1F) 0 1 0x80 0xBF)
  else if (0xE0 <=? b) && (b <=? 0xEF) then
    ([], mkUtf8 (Z.land b 0xF) 0 2
           (if b =? 0xE0 then 0xA0 else 0x80) (if b =? 0xED then 0x9F else 0xBF))
  else if (0xF0 <=? b) && (b <=? 0xF4) then
    ([], mkUtf8 (Z.land b 0x7) 0 3
           (if b =? 0xF0 then 0x90 else 0x80) (if b =? 0xF4 then 0x8F else 0xBF))
  else ([0xFFFD], utf8Init).

(** The decoder's handler for one byte: the code points emitted and the
    next state.  A byte outside the expected range is an error (U+FFFD)
    and is then handled again as a first byte. *)
Definition utf8Step (st : Utf8State) (b : Z) : list Z * Utf8State :=
  if bytesNeeded st =? 0 then utf8Lead b
  else if (b <? lowerBoundary st) || (upperBoundary st <? b) then
    let '(out, st') := utf8Lead b in (0xFFFD :: out, st')
  else
    let cp := Z.lor (Z.shiftl (codePoint st) 6) (Z.land b 0x3F) in
    if bytesSeen st + 1 =? bytesNeeded st then ([cp], utf8Init)
    else ([], mkUtf8 cp (bytesSeen st + 1) (bytesNeeded st) 0x80 0xBF).

(** Running the decoder over a byte sequence; at the end of the input a
    pending sequence is an error. *)
Fixpoint utf8DecodeFrom (st : Utf8State) (bs : list Z) : list Z :=
  match bs with
  | [] => if bytesNeeded st =? 0 then [] else [0xFFFD]
  | b :: rest => let '(out, st') := utf8Step st b in out ++ utf8DecodeFrom st' rest
  end.

(** A scalar value as UTF-16 code units. *)
Definition codeUnitsOf (cp : Z) : jsstring :=
  if cp <? 0x10000 then [cp]
  else [0xD800 + (cp - 0x10000) / 0x400; 0xDC00 + (cp - 0x10000) mod 0x400].

(** UTF-8 decode without BOM, to a string. *)
Definition utf8Decode (bs : list Z) : jsstring :=
  flat_map codeUnitsOf (utf8DecodeFrom utf8Init bs).

Definition isHexDigit (b : Z) : bool :=
  ((48 <=? b) && (b <=? 57)) || ((65 <=? b) && (b <=? 70)) ||
  ((97 <=? b) && (b <=? 102)).

Definition hexValue (b : Z) : Z :=
  if b <=? 57 then b - 48 else if b <=? 70 then b - 55 else b - 87.

(** Percent-decode of a byte sequence. *)
Fixpoint percentDecode (bs : list Z) : list Z :=
  match bs with
  | [] => []
  | b :: rest =>
    if b =? 37 then
      match rest with
      | h1 :: h2 :: rest' =>
        if isHexDigit h1 && isHexDigit h2
        then (hexValue h1 * 16 + hexValue h2) :: percentDecode rest'
        else b :: percentDecode rest
      | _ => b :: percentDecode rest
      end
    else b :: percentDecode rest
  end.

(** Strictly splitting a byte sequence on a separator byte. *)
Fixpoint splitOn (sep : Z) (bs : list Z) : list (list Z) :=
  match bs with
  | [] => [[]]
  | b :: rest =>
    if b =? sep then [] :: splitOn sep rest
    else match splitOn sep rest with
         | [] => [[b]]
         | w :: ws => (b :: w) :: ws
         end
  end.

(** A sequence cut at its first [=]: the name, and the value (empty when
    there is no [=]). *)
Fixpoint splitAtEquals (bs : list Z) : list Z * list Z :=
  match bs with
  | [] => ([], [])
  | b :: rest =>
    if b =? 61 then ([], rest)
    else let '(n, v) := splitAtEquals rest in (b :: n, v)
  end.

Definition plusToSpace (bs : list Z) : list Z :=
  map (fun b => if b =? 43 then 32 else b) bs.

Definition formDecode (bs : list Z) : jsstring :=
  utf8Decode (percentDecode (plusToSpace bs)).

(** The application/x-www-form-urlencoded parser: the list of name-value
    tuples of a query. *)
Definition parseUrlencoded (bs : list Z) : list (jsstring * jsstring) :=
  flat_map (fun seq =>
    match seq with
    | [] => []
    | _ :: _ => let '(n, v) := splitAtEquals seq in [(formDecode n, formDecode v)]
    end) (splitOn 38 bs).

(** [new URLSearchParams(query).get(name)]: the value of the first tuple
    with that name, else [null]. *)
Definition searchParamsGet (query name : jsstring) : option jsstring :=
  option_map snd
    (List.find (fun nv => strictEq (fst nv) name) (parseUrlencoded (utf8Encode query))).

(** The query of a relative URL: what follows the first question mark. *)
Fixpoint queryOf (u : jsstring) : jsstring :=
  match u with
  | [] => []
  | c :: rest => if c =? 63 then rest else queryOf rest
  end.

(** Scalar values: code points that are no surrogates. *)
Definition isScalar (cp : Z) : Prop :=
  0 <= cp < 0xD800 \/ 0xE000 <= cp < 0x110000.

(** The characters [encodeURIComponent] can emit. *)
Definition plain (c : Z) : Prop := unescaped c = true \/ c = 37.

(** Well-formed strings, built from code units outside the surrogate
    range and from surrogate pairs. *)
Inductive WellFormed : jsstring -> Prop :=
| wf_empty : WellFormed []
| wf_unit c s :
    0 <= c < 0x10000 -> ~ (0xD800 <= c <= 0xDFFF) ->
    WellFormed s -> WellFormed (c :: s)
| wf_pair c d s :
    0xD800 <= c <= 0xDBFF -> 0xDC00 <= d <= 0xDFFF ->
    WellFormed s -> WellFormed (c :: d :: s).

(** The states the decoder can be in: between two sequences, or inside
    one, with the bits read so far. *)
Definition decoderState (st : Utf8State) : Prop :=
  st = utf8Init \/
  (exists cp, st = mkUtf8 cp 0 1 0x80 0xBF /\ 2 <= cp < 32) \/
  (exists cp lo hi, st = mkUtf8 cp 0 2 lo hi /\ 0 <= cp < 16 /\
     0x80 <= lo /\ hi <= 0xBF /\ (cp = 0 -> 0xA0 <= lo) /\ (cp = 13 -> hi <= 0x9F)) \/
  (exists cp, st = mkUtf8 cp 1 2 0x80 0xBF /\ 0x20 <= cp < 0x400 /\
     ~ (0x360 <= cp < 0x380)) \/
  (exists cp lo hi, st = mkUtf8 cp 0 3 lo hi /\ 0 <= cp < 5 /\
     0x80 <= lo /\ hi <= 0xBF /\ (cp = 0 -> 0x90 <= lo) /\ (cp = 4 -> hi <= 0x8F)) \/
  (exists cp, st = mkUtf8 cp 1 3 0x80 0xBF /\ 0x10 <= cp < 0x110) \/
  (exists cp, st = mkUtf8 cp 2 3 0x80 0xBF /\ 0x400 <= cp < 0x4400).

End URI.

(** ** Role based routing (the [RoleBaseRoute] component) *)

Module RoleBaseRoute.

(** [type RoleRoute]. *)
Record RoleRoute := mkRoute {
  url : jsstring;
  role : list jsstring;
  redirect : option jsstring;
  needAuth : option bool
}.

(** [const routeRoles]. *)
Definition routeRoles : list RoleRoute :=
  [ mkRoute (lit "/admin/*") [lit "superadmin"] None (Some true);
    mkRoute (lit "/contact/*")
      [lit "anonymous"; lit "user"; lit "admin"; lit "superadmin"] None None ].

(** [const pageAccessOnlyIfUnAuthenticated]. *)
Definition pageAccessOnlyIfUnAuthenticated : list jsstring :=
  [lit "/signin"; lit "/signup"; lit "/reset-password"; lit "/verify-email"].

(** The callback handed to [routeRoles.find]. *)
Definition routeMatches (pathName : jsstring) (route : RoleRoute) : bool :=
  if strictEq (url route) pathName then true
  else if endsWith (url route) (lit "/*") then
    let basePath := replace (url route) (lit "/*") [] in
    startsWith pathName basePath
  else false.

(** [const currentRoute = routeRoles.find(...)]: the first route of the
    table, in declaration order, accepted by the callback. *)
Definition currentRoute (table : list RoleRoute) (pathName : jsstring)
  : option RoleRoute :=
  List.find (routeMatches pathName) table.

(** What [useAuth()] knows of the user: [user.role], possibly missing. *)
Record AuthUser := mkAuthUser { user_role : option (list jsstring) }.

(** The values the hooks hand to one run of the component. *)
Record Hooks := mkHooks {
  searchParams : jsstring;       (* useSearchParams(): the query of the URL *)
  pathName : jsstring;           (* usePathname() *)
  user : option AuthUser;        (* useAuth().user *)
  isAuthLoading : bool;          (* useAuth().isLoading *)
  AUTH_TOKEN : option jsstring;  (* useCookies(["AUTH_TOKEN"]) *)
  isLoading : bool               (* useState(false) *)
}.

(** [const redirectTo = searchParams.get("redirect")]. *)
Definition redirectTo (h : Hooks) : option jsstring :=
  URI.searchParamsGet (searchParams h) (lit "redirect").

(** [const userRoles = user?.role || []]. *)
Definition userRoles (h : Hooks) : list jsstring :=
  match user h with
  | Some u => match user_role u with Some r => r | None => [] end
  | None => []
  end.

(** [const isAuthenticated = !!(user && cookies.AUTH_TOKEN)]. *)
Definition isAuthenticated (h : Hooks) : bool :=
  match user h with
  | Some _ => truthy (AUTH_TOKEN h)
  | None => false
  end.

(** The verdict of one effect.  A call [router.replace(u)] or
    [router.push(u)] is a refusal with target [u], tagged by the branch
    that issued it; an effect that ends without a router call lets the
    page through. *)
Inductive Reason := NONE | NOT_AUTHENTICATED | MISSING_ROLE | AUTH_ONLY_PAGE.

Record GuardDecision := mkDecision {
  allowed : bool;
  target : option jsstring;
  reason : Reason
}.

Definition allow : GuardDecision := mkDecision true None NONE.
Definition deny (u : jsstring) (r : Reason) : GuardDecision :=
  mkDecision false (Some u) r.

(** How an effect ends: it returned at once because a loading flag was
    set, it threw the URIError of [encodeURIComponent], or it ran. *)
Inductive Outcome :=
| Skipped
| URIError
| Done (d : GuardDecision).

(** [currentRoute.role.some((role) => userRoles.includes(role))]. *)
Definition hasRequiredRole (route : RoleRoute) (h : Hooks) : bool :=
  existsb (fun r => includes (userRoles h) r) (role route).

(** The effect "Handle authentication and role-based redirects". *)
Definition guardEffect (table : list RoleRoute) (h : Hooks) : Outcome :=
  if isAuthLoading h then Skipped
  else
    match currentRoute table (pathName h) with
    | Some route =>
      if match needAuth route with Some b => b | None => false end
         && negb (isAuthenticated h)
      then
        match URI.encodeURIComponent (pathName h) with
        | Some e => Done (deny (lit "/signin?redirect=" ++ e) NOT_AUTHENTICATED)
        | None => URIError
        end
      else if isAuthenticated h then
        if negb (hasRequiredRole route h)
        then Done (deny (orElse (redirect route) (lit "/")) MISSING_ROLE)
        else Done allow
      else Done allow
    | None => Done allow
    end.

(** The effect "Prevent authenticated users from accessing
    unauthenticated-only pages". *)
Definition unauthOnlyEffect (pages : list jsstring) (h : Hooks) : Outcome :=
  if isAuthLoading h || isLoading h then Skipped
  else if isAuthenticated h && includes pages (pathName h)
  then Done (deny (orElse (redirectTo h) (lit "/")) AUTH_ONLY_PAGE)
  else Done allow.

(** The router calls of one run, in the order the effects are declared. *)
Inductive RouterCall :=
| Replace (href : jsstring)
| Push (href : jsstring).

Definition callOf (mk : jsstring -> RouterCall) (o : Outcome) : list RouterCall :=
  match o with
  | Done d => match target d with Some u => [mk u] | None => [] end
  | _ => []
  end.

Definition routerCalls (table : list RoleRoute) (pages : list jsstring)
    (h : Hooks) : list RouterCall :=
  callOf Replace (guardEffect table h) ++ callOf Push (unauthOnlyEffect pages h).

(** What the component returns: the preloader while a loading flag is
    set, else its children. *)
Inductive Rendered := PreLoader | Children.

Definition render (h : Hooks) : Rendered :=
  if isAuthLoading h || isLoading h then PreLoader else Children.

End RoleBaseRoute.

(** ** Roles and permissions *)

Module Permissions.

(** [const ROLES]: the own properties of the object. *)
Definition ROLES : gmap jsstring (list jsstring) :=
  list_to_map
    [ (lit "admin",
       [lit "view:comments"; lit "create:comments";
        lit "update:comments"; lit "delete:comments"]);
      (lit "moderator",
       [lit "view:comments"; lit "create:comments"; lit "delete:comments"]);
      (lit "user", [lit "view:comments"; lit "create:comments"]) ].

(** [type User]. *)
Record User := mkUser { roles : list jsstring; id : jsstring }.

(** The exception of a call: [ROLES[role]] of a name that is no own
    property is [undefined] or a member inherited from [Object.prototype];
    neither has an [includes] method, and the call throws a TypeError. *)
Inductive Thrown := TypeError.

(** [roles.some((role) => table[role].includes(permission))], scanning
    from the left and stopping at the first role that grants. *)
Fixpoint someRoleGrants (table : gmap jsstring (list jsstring))
    (rs : list jsstring) (permission : jsstring) : Thrown + bool :=
  match rs with
  | [] => inr false
  | r :: rest =>
    match table !! r with
    | None => inl TypeError
    | Some perms =>
      if includes perms permission then inr true
      else someRoleGrants table rest permission
    end
  end.

(** [function hasPermission(user, permission)]. *)
Definition hasPermission (user : User) (permission : jsstring) : Thrown + bool :=
  someRoleGrants ROLES (roles user) permission.

(** Every role is a key of the table: what the type [Role[]] says of
    [user.roles]. *)
Definition knownRoles (table : gmap jsstring (list jsstring))
    (rs : list jsstring) : Prop :=
  Forall (fun r => is_Some (table !! r)) rs.

End Permissions.

(** ** Middleware chaining *)

Module Middleware.

Section Chain.

Variables NextRequest NextFetchEvent NextResponse : Type.

(** [NextMiddlewareResult]: a response, or none of it ([null], [undefined]). *)
Definition NextMiddlewareResult : Type := option NextResponse.

(** What a middleware returns: the result, or a promise of it. *)
Inductive Returned :=
| Value (r : NextMiddlewareResult)
| PromiseOf (r : NextMiddlewareResult).

(** [type CustomMiddleware] and [type MiddlewareFactory]. *)
Definition CustomMiddleware : Type :=
  NextRequest -> NextFetchEvent -> NextResponse -> Returned.
Definition MiddlewareFactory : Type := CustomMiddleware -> CustomMiddleware.

(** The argument [index]: an integer, or a number that is no integer (a
    fraction, NaN, an infinity). *)
Inductive Index :=
| Integer (i : Z)
| NotInteger.

(** [index + 1]. *)
Definition plusOne (index : Index) : Index :=
  match index with
  | Integer i => Integer (i + 1)
  | NotInteger => NotInteger
  end.

(** [functions[index]]: [undefined] outside of the array. *)
Definition at_index (functions : list MiddlewareFactory) (index : Index)
  : option MiddlewareFactory :=
  match index with
  | Integer i => if i <? 0 then None else functions !! Z.to_nat i
  | NotInteger => None
  end.

(** The middleware of the base case. *)
Definition passThrough : CustomMiddleware :=
  fun request event response => Value (Some response).

(** [function chainMiddleware(functions, index = 0)], with a bound on
    the depth of the recursion: [None] when the bound is reached before
    the call returns. *)
Fixpoint chainMiddleware (depth : nat)
    (functions : list MiddlewareFactory) (index : Index) : option CustomMiddleware :=
  match depth with
  | O => None
  | S depth' =>
    match at_index functions index with
    | Some current =>
      match chainMiddleware depth' functions (plusOne index) with
      | Some next => Some (current next)
      | None => None
      end
    | None => Some passThrough
    end
  end.

(** The number of recursive calls still to be made from [index]. *)
Definition remaining (functions : list MiddlewareFactory) (index : Index) : nat :=
  match index with
  | Integer i => if i <? 0 then 0%nat else (length functions - Z.to_nat i)%nat
  | NotInteger => 0%nat
  end.

(** The factories applied one inside the other, the first one outermost,
    around a last middleware. *)
Definition nested (functions : list MiddlewareFactory) (last : CustomMiddleware)
  : CustomMiddleware :=
  fold_right (fun current next => current next) last functions.

End Chain.

Arguments Value {NextResponse} r.
Arguments PromiseOf {NextResponse} r.
Arguments at_index {NextRequest NextFetchEvent NextResponse} functions index.
Arguments passThrough {NextRequest NextFetchEvent NextResponse} request event response.
Arguments chainMiddleware {NextRequest NextFetchEvent NextResponse}
  depth functions index.
Arguments remaining {NextRequest NextFetchEvent NextResponse} functions index.
Arguments nested {NextRequest NextFetchEvent NextResponse} functions last.

End Middleware.

(** * Properties *)

(** ** Strings *)

Module JSFacts.

Lemma strictEq_spec (a b : jsstring) : strictEq a b = true <-> a = b.
Proof.
  revert b; induction a as [|x a IH]; intros [|y b]; simpl; try (split; congruence).
  rewrite andb_true_iff, Z.eqb_eq, IH. split.
  - intros [-> ->]; reflexivity.
  - intros [= -> ->]; auto.
Qed.

Lemma strictEq_refl (a : jsstring) : strictEq a a = true.
Proof. apply strictEq_spec; reflexivity. Qed.

Lemma strictEq_false (a b : jsstring) : strictEq a b = false <-> a <> b.
Proof.
  rewrite <- strictEq_spec. destruct (strictEq a b); split; congruence.
Qed.

Lemma startsWith_spec (s p : jsstring) :
  startsWith s p = true <-> exists t, s = p ++ t.
Proof.
  revert s; induction p as [|y p IH]; intros s.
  - destruct s; simpl; split; eauto.
  - destruct s as [|x s]; simpl.
    + split; [discriminate | intros [t [=]]].
    + rewrite andb_true_iff, Z.eqb_eq, IH. split.
      * intros [-> [t ->]]; eauto.
      * intros [t [= -> ->]]; eauto.
Qed.

Lemma startsWith_app (p t : jsstring) : startsWith (p ++ t) p = true.
Proof. apply startsWith_spec; eauto. Qed.

Lemma includes_spec (arr : list jsstring) (x : jsstring) :
  includes arr x = true <-> In x arr.
Proof.
  unfold includes. rewrite existsb_exists. split.
  - intros [y [Hy E]]. apply strictEq_spec in E; subst; assumption.
  - intros H; exists x; split; [assumption | apply strictEq_refl].
Qed.

Lemma endsWith_app (b p : jsstring) : endsWith (b ++ p) p = true.
Proof.
  unfold endsWith. rewrite length_app.
  apply andb_true_iff; split.
  - apply Nat.leb_le; lia.
  - replace (length b + length p - length p)%nat with (length b) by lia.
    rewrite drop_app_length. apply strictEq_refl.
Qed.

(** Replacing in [b ++ pat ++ t] hits the copy after [b] when [pat] does
    not start earlier. *)
Lemma replace_unfold (s pat rep : jsstring) :
  replace s pat rep =
  if startsWith s pat then rep ++ drop (length pat) s
  else match s with
       | [] => []
       | c :: s' => c :: replace s' pat rep
       end.
Proof. destruct s; reflexivity. Qed.

Lemma replace_first (b pat rep t : jsstring) :
  (forall pre post, b ++ pat ++ t = pre ++ pat ++ post ->
                    (length b <= length pre)%nat) ->
  replace (b ++ pat ++ t) pat rep = b ++ rep ++ t.
Proof.
  induction b as [|c b IH]; intros Hfirst.
  - simpl app. rewrite replace_unfold, startsWith_app, drop_app_length.
    reflexivity.
  - rewrite replace_unfold.
    destruct (startsWith ((c :: b) ++ pat ++ t) pat) eqn:S.
    + apply startsWith_spec in S as [u Hu].
      specialize (Hfirst [] u Hu). simpl in Hfirst. lia.
    + simpl app. f_equal. apply IH. intros pre post E.
      specialize (Hfirst (c :: pre) post). simpl in Hfirst.
      rewrite E in Hfirst. specialize (Hfirst eq_refl). lia.
Qed.

End JSFacts.

(** ** The route table lookup *)

Module RouteFacts.

Import RoleBaseRoute JSFacts.

Lemma find_first_match {A} (f : A -> bool) (l : list A) (x : A) :
  List.find f l = Some x <->
  exists pre post, l = pre ++ x :: post /\ f x = true /\
                   Forall (fun y => f y = false) pre.
Proof.
  induction l as [|a l IH]; simpl.
  - split; [discriminate | intros (pre & post & E & _)].
    destruct pre; discriminate.
  - destruct (f a) eqn:Fa.
    + split.
      * intros [= ->]. exists [], l. repeat split; auto.
      * intros (pre & post & E & Fx & Hpre).
        destruct pre as [|b pre]; simpl in E.
        -- congruence.
        -- injection E as -> _. inversion Hpre; congruence.
    + rewrite IH. split.
      * intros (pre & post & -> & Fx & Hpre).
        exists (a :: pre), post. repeat split; auto.
      * intros (pre & post & E & Fx & Hpre).
        destruct pre as [|b pre]; simpl in E.
        -- congruence.
        -- injection E as -> ->. inversion Hpre; subst. eauto.
Qed.

Lemma find_no_match {A} (f : A -> bool) (l : list A) :
  List.find f l = None <-> Forall (fun y => f y = false) l.
Proof.
  induction l as [|a l IH]; simpl.
  - split; auto.
  - destruct (f a) eqn:Fa.
    + split; [discriminate | intros H; inversion H; congruence].
    + rewrite IH. split; [auto | intros H; inversion H; auto].
Qed.

(** An occurrence of the marker in [b ++ "/*"] that starts inside [b]
    lies inside [b]. *)
Lemma marker_inside (b pre post : jsstring) :
  b ++ [47; 42] = pre ++ 47 :: 42 :: post ->
  (length pre < length b)%nat ->
  exists post', b = pre ++ 47 :: 42 :: post'.
Proof.
  revert b; induction pre as [|c pre IH]; intros b E L.
  - destruct b as [|x [|y b]]; simpl in *.
    + lia.
    + injection E as -> E. discriminate.
    + injection E as -> -> _. eauto.
  - destruct b as [|x b]; simpl in *; [lia|].
    injection E as -> E. destruct (IH b E) as [post' ->]; [lia|]. eauto.
Qed.

(** Wildcard routes whose base holds no marker: the callback is the
    prefix test on the base. *)
Lemma routeMatches_wildcard (b pathName : jsstring) rs rd na :
  ~ occursIn (lit "/*") b ->
  routeMatches pathName (mkRoute (b ++ lit "/*") rs rd na) = startsWith pathName b.
Proof.
  intros Hno. unfold routeMatches; cbn [url].
  destruct (strictEq (b ++ lit "/*") pathName) eqn:E.
  - apply strictEq_spec in E; subst. symmetry; apply startsWith_app.
  - rewrite endsWith_app.
    replace (replace (b ++ lit "/*") (lit "/*") []) with b; [reflexivity|].
    rewrite <- (app_nil_r (lit "/*")) at 1.
    rewrite replace_first; [now rewrite app_nil_r|].
    intros pre post Eq.
    destruct (Nat.le_gt_cases (length b) (length pre)) as [|L]; [assumption|].
    exfalso. apply Hno.
    destruct (marker_inside b pre post) as [post' ->]; [exact Eq | exact L |].
    exists pre, post'. reflexivity.
Qed.

End RouteFacts.

(** ** Escapes and UTF-8 *)

Module URIFacts.

Import URI.

Ltac div_lia := Z.to_euclidean_division_equations; lia.

Lemma land_low (b : Z) (n : Z) (m : Z) :
  0 <= n -> m = Z.ones n -> Z.land b m = b mod 2 ^ n.
Proof. intros Hn ->. apply Z.land_ones; assumption. Qed.

Lemma lor_shiftl_low (hi lo : Z) :
  0 <= lo < 64 -> Z.lor (Z.shiftl hi 6) lo = hi * 64 + lo.
Proof.
  intros Hlo. rewrite Z.shiftl_mul_pow2 by lia.
  rewrite <- Z.lxor_lor, <- Z.add_nocarry_lxor; try reflexivity.
  all: apply Z.bits_inj'; intros n Hn;
    rewrite Z.land_spec, Z.bits_0;
    destruct (Z.lt_ge_cases n 6) as [L|L];
    [ rewrite Z.mul_pow2_bits_low by lia; reflexivity
    | rewrite (Z.bits_above_log2 lo n), andb_false_r; [reflexivity | lia |] ];
    destruct (Z.eq_dec lo 0) as [->|];
    [ simpl; lia
    | apply Z.log2_lt_pow2; [lia|];
      apply Z.lt_le_trans with (2 ^ 6); [lia | apply Z.pow_le_mono_r; lia] ].
Qed.

Lemma utf8Lead_ascii (b : Z) :
  0 <= b <= 0x7F -> utf8Lead b = ([b], utf8Init).
Proof.
  intros H. unfold utf8Lead.
  destruct (Z.leb_spec 0 b); [|lia]. destruct (Z.leb_spec b 0x7F); [|lia].
  reflexivity.
Qed.

Lemma utf8Lead_two (b : Z) :
  0xC2 <= b <= 0xDF -> utf8Lead b = ([], mkUtf8 (b - 0xC0) 0 1 0x80 0xBF).
Proof.
  intros H. unfold utf8Lead.
  destruct (Z.leb_spec 0 b); [|lia]. destruct (Z.leb_spec b 0x7F); [lia|].
  destruct (Z.leb_spec 0xC2 b); [|lia]. destruct (Z.leb_spec b 0xDF); [|lia].
  cbn [andb]. rewrite (land_low b 5 0x1F) by (reflexivity || lia).
  do 2 f_equal. change (2 ^ 5) with 32. div_lia.
Qed.

Lemma utf8Lead_three (b : Z) :
  0xE0 <= b <= 0xEF ->
  utf8Lead b = ([], mkUtf8 (b - 0xE0) 0 2
                      (if b =? 0xE0 then 0xA0 else 0x80)
                      (if b =? 0xED then 0x9F else 0xBF)).
Proof.
  intros H. unfold utf8Lead.
  destruct (Z.leb_spec 0 b); [|lia]. destruct (Z.leb_spec b 0x7F); [lia|].
  destruct (Z.leb_spec 0xC2 b); [|lia]. destruct (Z.leb_spec b 0xDF); [lia|].
  destruct (Z.leb_spec 0xE0 b); [|lia]. destruct (Z.leb_spec b 0xEF); [|lia].
  cbn [andb]. rewrite (land_low b 4 0xF) by (reflexivity || lia).
  do 2 f_equal. change (2 ^ 4) with 16. div_lia.
Qed.

Lemma utf8Lead_four (b : Z) :
  0xF0 <= b <= 0xF4 ->
  utf8Lead b = ([], mkUtf8 (b - 0xF0) 0 3
                      (if b =? 0xF0 then 0x90 else 0x80)
                      (if b =? 0xF4 then 0x8F else 0xBF)).
Proof.
  intros H. unfold utf8Lead.
  destruct (Z.leb_spec 0 b); [|lia]. destruct (Z.leb_spec b 0x7F); [lia|].
  destruct (Z.leb_spec 0xC2 b); [|lia]. destruct (Z.leb_spec b 0xDF); [lia|].
  destruct (Z.leb_spec 0xE0 b); [|lia]. destruct (Z.leb_spec b 0xEF); [lia|].
  destruct (Z.leb_spec 0xF0 b); [|lia]. destruct (Z.leb_spec b 0xF4); [|lia].
  cbn [andb]. rewrite (land_low b 3 0x7) by (reflexivity || lia).
  do 2 f_equal. change (2 ^ 3) with 8. div_lia.
Qed.

(** A continuation byte inside the expected range. *)
Lemma utf8Step_continue (cp seen needed lo hi b : Z) :
  needed <> 0 -> lo <= b <= hi -> 0x80 <= b <= 0xBF ->
  utf8Step (mkUtf8 cp seen needed lo hi) b =
  if seen + 1 =? needed then ([cp * 64 + (b - 0x80)], utf8Init)
  else ([], mkUtf8 (cp * 64 + (b - 0x80)) (seen + 1) needed 0x80 0xBF).
Proof.
  intros Hn Hr Hb. unfold utf8Step.
  cbn [bytesNeeded lowerBoundary upperBoundary codePoint bytesSeen].
  destruct (Z.eqb_spec needed 0); [contradiction|].
  destruct (Z.ltb_spec b lo); [lia|]. destruct (Z.ltb_spec hi b); [lia|].
  cbn [orb].
  rewrite (land_low b 6 0x3F) by (reflexivity || lia).
  change (2 ^ 6) with 64.
  rewrite lor_shiftl_low by div_lia.
  replace (b mod 64) with (b - 0x80) by div_lia. reflexivity.
Qed.

Lemma utf8Step_last (cp seen needed lo hi b : Z) :
  needed <> 0 -> lo <= b <= hi -> 0x80 <= b <= 0xBF -> seen + 1 = needed ->
  utf8Step (mkUtf8 cp seen needed lo hi) b = ([cp * 64 + (b - 0x80)], utf8Init).
Proof.
  intros Hn Hr Hb Hs. rewrite utf8Step_continue by assumption.
  destruct (Z.eqb_spec (seen + 1) needed); [reflexivity | contradiction].
Qed.

Lemma utf8Step_more (cp seen needed lo hi b : Z) :
  needed <> 0 -> lo <= b <= hi -> 0x80 <= b <= 0xBF -> seen + 1 <> needed ->
  utf8Step (mkUtf8 cp seen needed lo hi) b =
  ([], mkUtf8 (cp * 64 + (b - 0x80)) (seen + 1) needed 0x80 0xBF).
Proof.
  intros Hn Hr Hb Hs. rewrite utf8Step_continue by assumption.
  destruct (Z.eqb_spec (seen + 1) needed); [contradiction | reflexivity].
Qed.

Lemma utf8Step_lead (b : Z) : utf8Step utf8Init b = utf8Lead b.
Proof. reflexivity. Qed.

Lemma decode_one (c : Z) (t : list Z) :
  0 <= c < 0x80 ->
  utf8DecodeFrom utf8Init (c :: t) = c :: utf8DecodeFrom utf8Init t.
Proof.
  intros H. cbn [utf8DecodeFrom].
  rewrite utf8Step_lead, utf8Lead_ascii by lia. reflexivity.
Qed.

Lemma decode_two (a r : Z) (t : list Z) :
  2 <= a < 32 -> 0 <= r < 64 ->
  utf8DecodeFrom utf8Init (0xC0 + a :: 0x80 + r :: t) =
  a * 64 + r :: utf8DecodeFrom utf8Init t.
Proof.
  intros Ha Hr. cbn [utf8DecodeFrom].
  rewrite utf8Step_lead, utf8Lead_two by lia. cbn [app].
  rewrite utf8Step_last by lia. cbn [app].
  f_equal. lia.
Qed.

Lemma decode_three (a q r : Z) (t : list Z) :
  0 <= a < 16 -> 0 <= q < 64 -> 0 <= r < 64 ->
  (a = 0 -> 32 <= q) -> (a = 13 -> q < 32) ->
  utf8DecodeFrom utf8Init (0xE0 + a :: 0x80 + q :: 0x80 + r :: t) =
  (a * 64 + q) * 64 + r :: utf8DecodeFrom utf8Init t.
Proof.
  intros Ha Hq Hr H0 H13. cbn [utf8DecodeFrom].
  rewrite utf8Step_lead, utf8Lead_three by lia. cbn [app].
  rewrite utf8Step_more;
    [| lia | destruct (Z.eqb_spec (0xE0 + a) 0xE0), (Z.eqb_spec (0xE0 + a) 0xED); lia
     | lia | lia].
  cbn [app]. rewrite utf8Step_last by lia. cbn [app].
  f_equal. lia.
Qed.

Lemma decode_four (a p q r : Z) (t : list Z) :
  0 <= a < 5 -> 0 <= p < 64 -> 0 <= q < 64 -> 0 <= r < 64 ->
  (a = 0 -> 16 <= p) -> (a = 4 -> p < 16) ->
  utf8DecodeFrom utf8Init (0xF0 + a :: 0x80 + p :: 0x80 + q :: 0x80 + r :: t) =
  ((a * 64 + p) * 64 + q) * 64 + r :: utf8DecodeFrom utf8Init t.
Proof.
  intros Ha Hp Hq Hr H0 H4. cbn [utf8DecodeFrom].
  rewrite utf8Step_lead, utf8Lead_four by lia. cbn [app].
  rewrite utf8Step_more;
    [| lia | destruct (Z.eqb_spec (0xF0 + a) 0xF0), (Z.eqb_spec (0xF0 + a) 0xF4); lia
     | lia | lia].
  cbn [app]. rewrite utf8Step_more by lia.
  cbn [app]. rewrite utf8Step_last by lia. cbn [app].
  f_equal. lia.
Qed.

(** The decoder reads back the octets of a scalar value. *)
Lemma decode_octets (cp : Z) (t : list Z) :
  isScalar cp ->
  utf8DecodeFrom utf8Init (utf8Octets cp ++ t) = cp :: utf8DecodeFrom utf8Init t.
Proof.
  intros Hs. unfold isScalar in Hs. unfold utf8Octets.
  destruct (Z.ltb_spec cp 0x80); [apply decode_one; lia|].
  destruct (Z.ltb_spec cp 0x800).
  { cbn [app]. rewrite decode_two by div_lia. f_equal. div_lia. }
  destruct (Z.ltb_spec cp 0x10000).
  { cbn [app]. rewrite decode_three by div_lia. f_equal. div_lia. }
  cbn [app]. rewrite decode_four by div_lia. f_equal. div_lia.
Qed.

Lemma octets_are_bytes (cp : Z) :
  0 <= cp < 0x110000 -> Forall (fun b => 0 <= b < 256) (utf8Octets cp).
Proof.
  intros H. unfold utf8Octets.
  destruct (Z.ltb_spec cp 0x80); [|destruct (Z.ltb_spec cp 0x800);
    [|destruct (Z.ltb_spec cp 0x10000)]];
  repeat constructor; div_lia.
Qed.

Lemma hexDigit_ok (d : Z) :
  0 <= d < 16 ->
  isHexDigit (hexDigit d) = true /\ hexValue (hexDigit d) = d /\
  unescaped (hexDigit d) = true.
Proof.
  intros H.
  assert (E : In d [0;1;2;3;4;5;6;7;8;9;10;11;12;13;14;15]) by (simpl; lia).
  simpl in E. intuition (subst; try reflexivity; lia).
Qed.

Lemma percentDecode_octet (b : Z) (t : list Z) :
  0 <= b < 256 ->
  percentDecode (percentOctet b ++ t) = b :: percentDecode t.
Proof.
  intros H. unfold percentOctet. cbn [app percentDecode Z.eqb Pos.eqb].
  destruct (hexDigit_ok (b / 16)) as (-> & -> & _); [div_lia|].
  destruct (hexDigit_ok (b mod 16)) as (-> & -> & _); [div_lia|].
  cbn [andb]. f_equal. div_lia.
Qed.

Lemma percentDecode_octets (bs t : list Z) :
  Forall (fun b => 0 <= b < 256) bs ->
  percentDecode (percentOctets bs ++ t) = bs ++ percentDecode t.
Proof.
  induction 1 as [|b bs Hb _ IH]; [reflexivity|].
  unfold percentOctets in *. cbn [flat_map]. rewrite <- app_assoc.
  rewrite percentDecode_octet by assumption. cbn [app]. f_equal. exact IH.
Qed.

Lemma percentOctets_plain (bs : list Z) :
  Forall (fun b => 0 <= b < 256) bs -> Forall plain (percentOctets bs).
Proof.
  induction 1 as [|b bs Hb _ IH]; [constructor|].
  unfold percentOctets in *. cbn [flat_map percentOctet app].
  constructor; [right; reflexivity|].
  constructor; [left; apply hexDigit_ok; div_lia|].
  constructor; [left; apply hexDigit_ok; div_lia|]. exact IH.
Qed.

Lemma unescaped_ascii (c : Z) : unescaped c = true -> 0 <= c < 0x80 /\ c <> 37.
Proof.
  unfold unescaped. cbn [existsb].
  rewrite !orb_true_iff, !andb_true_iff, !Z.leb_le, !Z.eqb_eq. lia.
Qed.

Lemma plain_facts (c : Z) :
  plain c -> 0 <= c < 0x80 /\ c <> 38 /\ c <> 61 /\ c <> 43 /\ c <> 63.
Proof.
  intros [H| ->]; [|lia]. revert H. unfold unescaped. cbn [existsb].
  rewrite !orb_true_iff, !andb_true_iff, !Z.leb_le, !Z.eqb_eq. lia.
Qed.

Lemma isLeadingSurrogate_spec (c : Z) :
  isLeadingSurrogate c = true <-> 0xD800 <= c <= 0xDBFF.
Proof. unfold isLeadingSurrogate. rewrite andb_true_iff, !Z.leb_le. tauto. Qed.

Lemma isTrailingSurrogate_spec (c : Z) :
  isTrailingSurrogate c = true <-> 0xDC00 <= c <= 0xDFFF.
Proof. unfold isTrailingSurrogate. rewrite andb_true_iff, !Z.leb_le. tauto. Qed.

Lemma isCodeUnit_spec (c : Z) : isCodeUnit c = true <-> 0 <= c < 0x10000.
Proof. unfold isCodeUnit. rewrite andb_true_iff, Z.leb_le, Z.ltb_lt. tauto. Qed.

Lemma isWellFormed_sound (s : jsstring) :
  isWellFormed s = true -> WellFormed s.
Proof.
  assert (H : forall n s, (length s <= n)%nat -> isWellFormed s = true -> WellFormed s).
  { clear s. induction n as [|n IH]; intros [|c s] L; simpl in L;
      try lia; try (intros _; exact wf_empty).
    cbn [isWellFormed]. destruct (isLeadingSurrogate c) eqn:Lc.
    - apply isLeadingSurrogate_spec in Lc.
      destruct s as [|d s]; [discriminate|].
      rewrite andb_true_iff, isTrailingSurrogate_spec. intros [Hd W].
      apply wf_pair; [lia | lia |]. apply IH; [simpl in L; lia | exact W].
    - rewrite !andb_true_iff, negb_true_iff, isCodeUnit_spec.
      intros [[Hc Ht] W].
      apply wf_unit; [lia | | apply IH; [lia | exact W]].
      intros Hs.
      destruct (Z.le_gt_cases c 0xDBFF).
      + apply not_true_iff_false in Lc. apply Lc, isLeadingSurrogate_spec. lia.
      + apply not_true_iff_false in Ht. apply Ht, isTrailingSurrogate_spec. lia. }
  apply (H (length s)); lia.
Qed.

Lemma codeUnitsOf_pair (c d : Z) :
  0xD800 <= c <= 0xDBFF -> 0xDC00 <= d <= 0xDFFF ->
  codeUnitsOf (surrogatePairToCodePoint c d) = [c; d].
Proof.
  intros Hc Hd. unfold codeUnitsOf, surrogatePairToCodePoint.
  destruct (Z.ltb_spec ((c - 0xD800) * 0x400 + (d - 0xDC00) + 0x10000) 0x10000);
    [lia|].
  f_equal; [|f_equal]; div_lia.
Qed.

Lemma utf8Decode_cons (cp : Z) (t : list Z) :
  isScalar cp ->
  utf8Decode (utf8Octets cp ++ t) = codeUnitsOf cp ++ utf8Decode t.
Proof.
  intros H. unfold utf8Decode. rewrite decode_octets by assumption. reflexivity.
Qed.

(** [encodeURIComponent] succeeds on a well-formed string, emits plain
    characters only, and unescaping its result as UTF-8 gives the string
    back. *)
Lemma encode_decode (s : jsstring) :
  WellFormed s ->
  exists e, encodeURIComponent s = Some e /\ Forall plain e /\
            utf8Decode (percentDecode e) = s.
Proof.
  induction 1 as [|c s Hc Hns _ (e & E & P & D)|c d s Hc Hd _ (e & E & P & D)].
  - exists []. repeat split; constructor.
  - cbn [encodeURIComponent]. rewrite E. cbn [option_map].
    destruct (unescaped c) eqn:U.
    + exists (c :: e). split; [reflexivity|]. split; [constructor; [left|]; assumption|].
      destruct (unescaped_ascii c U) as [R N].
      cbn [percentDecode]. destruct (Z.eqb_spec c 37); [contradiction|].
      unfold utf8Decode in *. rewrite decode_one by lia.
      cbn [flat_map]. rewrite D. unfold codeUnitsOf.
      destruct (Z.ltb_spec c 0x10000); [reflexivity | lia].
    + unfold isLeadingSurrogate, isTrailingSurrogate.
      assert (B : Forall (fun b => 0 <= b < 256) (utf8Octets c))
        by (apply octets_are_bytes; lia).
      destruct (Z.leb_spec 0xD800 c), (Z.leb_spec c 0xDBFF),
               (Z.leb_spec 0xDC00 c), (Z.leb_spec c 0xDFFF);
        cbn [andb]; try lia.
      all: eexists; split; [reflexivity|];
        split; [apply Forall_app; split; [apply percentOctets_plain; exact B | exact P]|];
        rewrite percentDecode_octets by exact B;
        rewrite utf8Decode_cons by (unfold isScalar; lia);
        rewrite D; unfold codeUnitsOf;
        destruct (Z.ltb_spec c 0x10000); [reflexivity | lia].
  - cbn [encodeURIComponent]. rewrite E. cbn [option_map].
    assert (U : unescaped c = false).
    { destruct (unescaped c) eqn:U; [|reflexivity].
      apply unescaped_ascii in U. lia. }
    rewrite U. unfold isLeadingSurrogate, isTrailingSurrogate.
    destruct (Z.leb_spec 0xD800 c), (Z.leb_spec c 0xDBFF),
             (Z.leb_spec 0xDC00 d), (Z.leb_spec d 0xDFFF); try lia.
    cbn [andb].
    assert (R : 0x10000 <= surrogatePairToCodePoint c d < 0x110000)
      by (unfold surrogatePairToCodePoint; lia).
    assert (B : Forall (fun b => 0 <= b < 256)
                  (utf8Octets (surrogatePairToCodePoint c d)))
      by (apply octets_are_bytes; lia).
    eexists; split; [reflexivity|].
    split; [apply Forall_app; split; [apply percentOctets_plain; exact B | exact P]|].
    rewrite percentDecode_octets by exact B.
    rewrite utf8Decode_cons by (unfold isScalar; lia).
    rewrite D, codeUnitsOf_pair by lia. reflexivity.
Qed.

Lemma utf8Encode_ascii (s : jsstring) :
  Forall (fun c => 0 <= c < 0x80) s -> utf8Encode s = s.
Proof.
  induction 1 as [|c s Hc _ IH]; [reflexivity|].
  cbn [utf8Encode]. rewrite IH.
  unfold isLeadingSurrogate, isTrailingSurrogate, utf8Octets.
  destruct (Z.leb_spec 0xD800 c); [lia|]. cbn [andb].
  destruct (Z.leb_spec 0xDC00 c); [lia|]. cbn [andb].
  destruct (Z.ltb_spec c 0x80); [reflexivity | lia].
Qed.

Lemma splitOn_absent (sep : Z) (bs : list Z) :
  Forall (fun b => b <> sep) bs -> splitOn sep bs = [bs].
Proof.
  induction 1 as [|b bs Hb _ IH]; [reflexivity|].
  cbn [splitOn]. rewrite IH.
  destruct (Z.eqb_spec b sep); [contradiction | reflexivity].
Qed.

Lemma splitAtEquals_found (n v : list Z) :
  Forall (fun b => b <> 61) n -> splitAtEquals (n ++ 61 :: v) = (n, v).
Proof.
  induction 1 as [|b n Hb _ IH]; [reflexivity|].
  cbn [app splitAtEquals]. rewrite IH.
  destruct (Z.eqb_spec b 61); [contradiction | reflexivity].
Qed.

Lemma plusToSpace_absent (bs : list Z) :
  Forall (fun b => b <> 43) bs -> plusToSpace bs = bs.
Proof.
  induction 1 as [|b bs Hb _ IH]; [reflexivity|].
  unfold plusToSpace in *. cbn [map]. rewrite IH.
  destruct (Z.eqb_spec b 43); [contradiction | reflexivity].
Qed.

Lemma Forall_plain (Q : Z -> Prop) (e : jsstring) :
  (forall c, 0 <= c < 0x80 /\ c <> 38 /\ c <> 61 /\ c <> 43 /\ c <> 63 -> Q c) ->
  Forall plain e -> Forall Q e.
Proof.
  intros HQ H. eapply List.Forall_impl; [|exact H].
  intros c Hc. apply HQ, plain_facts, Hc.
Qed.

(** The query [redirect=e], for [e] made of plain characters, has the
    single parameter [redirect], whose value is [e] unescaped. *)
Lemma searchParamsGet_redirect (e : jsstring) :
  Forall plain e ->
  searchParamsGet (lit "redirect=" ++ e) (lit "redirect") =
  Some (utf8Decode (percentDecode e)).
Proof.
  intros P. unfold searchParamsGet, parseUrlencoded.
  assert (L : Forall (fun c => 0 <= c < 0x80 /\ c <> 38 /\ c <> 61 /\ c <> 43)
                (lit "redirect")).
  { change (lit "redirect") with [114; 101; 100; 105; 114; 101; 99; 116].
    repeat constructor; lia. }
  rewrite utf8Encode_ascii.
  2:{ change (lit "redirect=") with (lit "redirect" ++ [61]). rewrite <- app_assoc.
      apply Forall_app; split; [eapply List.Forall_impl; [|exact L]; simpl; lia|].
      constructor; [lia|]. apply Forall_plain; [lia | exact P]. }
  rewrite splitOn_absent.
  2:{ change (lit "redirect=") with (lit "redirect" ++ [61]). rewrite <- app_assoc.
      apply Forall_app; split; [eapply List.Forall_impl; [|exact L]; simpl; lia|].
      constructor; [lia|]. apply Forall_plain; [lia | exact P]. }
  cbn [flat_map].
  change (lit "redirect=" ++ e) with (114 :: (lit "edirect" ++ 61 :: e)) at 1.
  change (lit "redirect=" ++ e) with (lit "redirect" ++ 61 :: e).
  rewrite splitAtEquals_found by (eapply List.Forall_impl; [|exact L]; simpl; lia).
  rewrite app_nil_r. cbn [List.find fst].
  change (formDecode (lit "redirect")) with (lit "redirect").
  rewrite JSFacts.strictEq_refl. cbn [option_map snd].
  unfold formDecode. rewrite plusToSpace_absent; [reflexivity|].
  apply Forall_plain; [lia | exact P].
Qed.

(** The value of the [redirect] parameter of the sign-in URL built for a
    well-formed path is that path. *)
Lemma redirect_roundtrip (path : jsstring) :
  isWellFormed path = true ->
  exists e, encodeURIComponent path = Some e /\
            searchParamsGet (queryOf (lit "/signin?redirect=" ++ e)) (lit "redirect")
            = Some path.
Proof.
  intros W. apply isWellFormed_sound in W.
  destruct (encode_decode path W) as (e & E & P & D).
  exists e. split; [exact E|].
  change (queryOf (lit "/signin?redirect=" ++ e)) with (lit "redirect=" ++ e).
  rewrite searchParamsGet_redirect by exact P. rewrite D. reflexivity.
Qed.

End URIFacts.

(** ** The guard of [RoleBaseRoute] *)

Module GuardFacts.

Import RoleBaseRoute JSFacts.

Lemma orElse_cases (o : option jsstring) (d : jsstring) :
  (o = None -> orElse o d = d) /\
  (o = Some [] -> orElse o d = d) /\
  (forall p, p <> [] -> o = Some p -> orElse o d = p).
Proof.
  repeat split.
  - intros ->; reflexivity.
  - intros ->; reflexivity.
  - intros p Hp ->. destruct p; [contradiction | reflexivity].
Qed.

Lemma hasRequiredRole_spec (route : RoleRoute) (h : Hooks) :
  hasRequiredRole route h = true <->
  exists r, In r (role route) /\ In r (userRoles h).
Proof.
  unfold hasRequiredRole. rewrite existsb_exists.
  split; intros (r & Hr & Hu); exists r; split; try assumption;
    apply includes_spec; assumption.
Qed.

(** C1, amended.  The lookup takes the first route in declaration
    order whose pattern accepts the path, whatever the other routes are:
    a route [r] is the current route exactly when it accepts the path and
    no route declared before it does.  With routes for [/admin/*] and
    [/admin/billing/*], the path [/admin/billing/invoice] gets the
    [/admin/billing/*] route when that one is declared first, and the
    [/admin/*] route when that one is declared first. *)
Theorem currentRoute_first_declared :
  (forall table pathName r,
      currentRoute table pathName = Some r <->
      exists pre post, table = pre ++ r :: post /\
        routeMatches pathName r = true /\
        Forall (fun q => routeMatches pathName q = false) pre) /\
  (forall rs1 rd1 na1 rs2 rd2 na2,
      let wide := mkRoute (lit "/admin/*") rs1 rd1 na1 in
      let narrow := mkRoute (lit "/admin/billing/*") rs2 rd2 na2 in
      currentRoute [narrow; wide] (lit "/admin/billing/invoice") = Some narrow /\
      currentRoute [wide; narrow] (lit "/admin/billing/invoice") = Some wide).
Proof.
  split.
  - intros table pathName r. apply RouteFacts.find_first_match.
  - intros. split; reflexivity.
Qed.

Lemma currentRoute_first_declared_witness :
  exists pre post,
    routeRoles = pre ++ mkRoute (lit "/contact/*")
      [lit "anonymous"; lit "user"; lit "admin"; lit "superadmin"] None None :: post /\
    Forall (fun q => routeMatches (lit "/contact/us") q = false) pre.
Proof.
  destruct (proj1 (proj1 currentRoute_first_declared routeRoles (lit "/contact/us")
                     (mkRoute (lit "/contact/*")
                        [lit "anonymous"; lit "user"; lit "admin"; lit "superadmin"]
                        None None)) eq_refl)
    as (pre & post & E & _ & F).
  exists pre, post. split; assumption.
Defined.

(** C1, counterexample to the rule of the most specific pattern: with
    [/admin/*] declared before
    [/admin/billing/*], the path [/admin/billing/invoice] is accepted by
    both patterns and the lookup returns the [/admin/*] route; with
    [/admin/*] declared before the exact pattern [/admin/billing], the
    path [/admin/billing] gets the wildcard route as well. *)
Lemma currentRoute_not_most_specific :
  let wide := mkRoute (lit "/admin/*") [lit "superadmin"] None (Some true) in
  let narrow := mkRoute (lit "/admin/billing/*") [lit "billing"] None (Some true) in
  let exact := mkRoute (lit "/admin/billing") [lit "billing"] None (Some true) in
  (routeMatches (lit "/admin/billing/invoice") narrow = true /\
   currentRoute [wide; narrow] (lit "/admin/billing/invoice") = Some wide /\
   currentRoute [wide; narrow] (lit "/admin/billing/invoice") <> Some narrow) /\
  (routeMatches (lit "/admin/billing") exact = true /\
   currentRoute [wide; exact] (lit "/admin/billing") = Some wide /\
   currentRoute [wide; exact] (lit "/admin/billing") <> Some exact).
Proof. cbv zeta. repeat split; try reflexivity; discriminate. Qed.

(** C2.  When the current route needs authentication and the visitor is
    not authenticated, the guard refuses with reason NOT_AUTHENTICATED and
    sends the visitor to [/signin?redirect=e], [e] being the requested
    path as escaped by [encodeURIComponent]; the [redirect] parameter of
    that URL reads back as the requested path.  The roles of the user play
    no part: the rule comes before the role check. *)
Theorem unauthenticated_goes_to_signin (table : list RoleRoute) (h : Hooks)
    (route : RoleRoute) :
  isAuthLoading h = false ->
  currentRoute table (pathName h) = Some route ->
  needAuth route = Some true ->
  isAuthenticated h = false ->
  URI.isWellFormed (pathName h) = true ->
  exists e,
    URI.encodeURIComponent (pathName h) = Some e /\
    guardEffect table h =
      Done (mkDecision false (Some (lit "/signin?redirect=" ++ e)) NOT_AUTHENTICATED) /\
    URI.searchParamsGet (URI.queryOf (lit "/signin?redirect=" ++ e)) (lit "redirect")
      = Some (pathName h).
Proof.
  intros L C N A W.
  destruct (URIFacts.redirect_roundtrip (pathName h) W) as (e & E & R).
  exists e. split; [exact E|]. split; [|exact R].
  unfold guardEffect. rewrite L, C, N, A, E. reflexivity.
Qed.

Lemma unauthenticated_goes_to_signin_witness :
  let h := mkHooks [] (lit "/admin/dashboard")
             (Some (mkAuthUser (Some [lit "superadmin"]))) false None false in
  exists e,
    URI.encodeURIComponent (pathName h) = Some e /\
    guardEffect routeRoles h =
      Done (mkDecision false (Some (lit "/signin?redirect=" ++ e)) NOT_AUTHENTICATED) /\
    URI.searchParamsGet (URI.queryOf (lit "/signin?redirect=" ++ e)) (lit "redirect")
      = Some (pathName h).
Proof.
  cbv zeta.
  apply (unauthenticated_goes_to_signin routeRoles _
           (mkRoute (lit "/admin/*") [lit "superadmin"] None (Some true)));
    reflexivity.
Defined.

(** C3.  When the visitor is authenticated and holds none of the roles
    of the current route, the guard refuses with reason MISSING_ROLE and
    sends the visitor to the route's [redirect] when it is set, else to
    [/].  In the source's table, an authenticated user with the one role
    [user] asking for [/admin/dashboard] is sent to [/]. *)
Theorem missing_role_goes_to_fallback :
  (forall (table : list RoleRoute) (h : Hooks) (route : RoleRoute),
      isAuthLoading h = false ->
      currentRoute table (pathName h) = Some route ->
      isAuthenticated h = true ->
      (forall r, In r (role route) -> ~ In r (userRoles h)) ->
      guardEffect table h =
        Done (mkDecision false (Some (orElse (redirect route) (lit "/"))) MISSING_ROLE) /\
      (redirect route = None -> orElse (redirect route) (lit "/") = lit "/") /\
      (forall f, f <> [] -> redirect route = Some f ->
                 orElse (redirect route) (lit "/") = f)) /\
  (forall token query,
      truthy token = true ->
      guardEffect
        [mkRoute (lit "/admin/*") [lit "superadmin"] None (Some true)]
        (mkHooks query (lit "/admin/dashboard")
                 (Some (mkAuthUser (Some [lit "user"]))) false token false)
      = Done (mkDecision false (Some (lit "/")) MISSING_ROLE)).
Proof.
  split.
  - intros table h route L C A Hno.
    split; [|split; [apply orElse_cases | intros f Hf E; apply orElse_cases; assumption]].
    unfold guardEffect. rewrite L, C, A. cbn [negb andb].
    rewrite andb_false_r.
    destruct (hasRequiredRole route h) eqn:R; [|reflexivity].
    apply hasRequiredRole_spec in R as (r & Hr & Hu). destruct (Hno r Hr Hu).
  - intros token query T. unfold guardEffect, isAuthenticated.
    cbn [isAuthLoading pathName user AUTH_TOKEN]. rewrite T. reflexivity.
Qed.

Lemma missing_role_goes_to_fallback_witness :
  let h := mkHooks [] (lit "/admin/dashboard")
             (Some (mkAuthUser (Some [lit "user"]))) false (Some (lit "token")) false in
  guardEffect routeRoles h = Done (mkDecision false (Some (lit "/")) MISSING_ROLE).
Proof.
  cbv zeta.
  refine (proj1 (proj1 missing_role_goes_to_fallback routeRoles _
            (mkRoute (lit "/admin/*") [lit "superadmin"] None (Some true))
            _ _ _ _)); try reflexivity.
  simpl. intros r [<- | []] [E | []]. discriminate E.
Defined.

(** C4.  A path that no route of the table accepts passes the guard,
    whoever the visitor is: allowed, no target, reason NONE. *)
Theorem unlisted_path_is_allowed (table : list RoleRoute) (h : Hooks) :
  isAuthLoading h = false ->
  Forall (fun r => routeMatches (pathName h) r = false) table ->
  currentRoute table (pathName h) = None /\
  guardEffect table h = Done (mkDecision true None NONE).
Proof.
  intros L H. apply RouteFacts.find_no_match in H.
  split; [exact H|]. unfold guardEffect, currentRoute. rewrite L, H. reflexivity.
Qed.

Lemma unlisted_path_is_allowed_witness :
  let h := mkHooks [] (lit "/pricing") None false None false in
  currentRoute routeRoles (pathName h) = None /\
  guardEffect routeRoles h = Done (mkDecision true None NONE).
Proof.
  cbv zeta. apply unlisted_path_is_allowed; [reflexivity|].
  repeat constructor.
Defined.

(** C5.  The return-to path survives the trip through the sign-in URL:
    for a well-formed path, [encodeURIComponent] succeeds, and on the page
    whose query is that of [/signin?redirect=e] the [redirect] parameter
    reads back as the path itself, reserved characters included; when the
    path is not empty, [redirectTo || "/"] is the path as well. *)
Theorem return_to_roundtrip (path : jsstring) :
  URI.isWellFormed path = true ->
  exists e,
    URI.encodeURIComponent path = Some e /\
    forall h : Hooks,
      searchParams h = URI.queryOf (lit "/signin?redirect=" ++ e) ->
      redirectTo h = Some path /\
      (path <> [] -> orElse (redirectTo h) (lit "/") = path).
Proof.
  intros W. destruct (URIFacts.redirect_roundtrip path W) as (e & E & R).
  exists e. split; [exact E|]. intros h Q.
  unfold redirectTo. rewrite Q, R. split; [reflexivity|].
  intros Hne. destruct path; [contradiction | reflexivity].
Qed.

Lemma return_to_roundtrip_witness :
  let path := lit "/search?q=a&b=c d+e#f%/'x'" ++ [0xE9; 0x20AC; 0xD83D; 0xDE00] in
  exists e,
    URI.encodeURIComponent path = Some e /\
    forall h : Hooks,
      searchParams h = URI.queryOf (lit "/signin?redirect=" ++ e) ->
      redirectTo h = Some path /\
      (path <> [] -> orElse (redirectTo h) (lit "/") = path).
Proof.
  cbv zeta. apply return_to_roundtrip. vm_compute. reflexivity.
Defined.

(** C6.  Once loading is over, an authenticated visitor on one of the
    pages meant for unauthenticated visitors is refused with reason
    AUTH_ONLY_PAGE and sent to the pending [redirect] parameter when there
    is one, else to [/].  The route table plays no part: whatever the
    guard decided, this push is the last router call of the run, and it is
    the only one where the guard let the page through.  An authenticated
    visitor on [/signin] without a pending parameter, with the pages
    [/signin] and [/signup], is sent to [/]. *)
Theorem authenticated_leaves_unauth_only_page :
  (forall (pages : list jsstring) (h : Hooks),
      isAuthLoading h = false -> isLoading h = false ->
      isAuthenticated h = true -> In (pathName h) pages ->
      let home := orElse (redirectTo h) (lit "/") in
      unauthOnlyEffect pages h = Done (mkDecision false (Some home) AUTH_ONLY_PAGE) /\
      (redirectTo h = None -> home = lit "/") /\
      (forall p, p <> [] -> redirectTo h = Some p -> home = p) /\
      (forall table, last (routerCalls table pages h) = Some (Push home)) /\
      (forall table, guardEffect table h = Done allow ->
                     routerCalls table pages h = [Push home])) /\
  (forall u token,
      truthy token = true ->
      unauthOnlyEffect [lit "/signin"; lit "/signup"]
        (mkHooks [] (lit "/signin") (Some u) false token false)
      = Done (mkDecision false (Some (lit "/")) AUTH_ONLY_PAGE)).
Proof.
  split.
  - intros pages h L L' A I home.
    assert (E : unauthOnlyEffect pages h
                = Done (mkDecision false (Some home) AUTH_ONLY_PAGE)).
    { unfold unauthOnlyEffect. rewrite L, L', A.
      apply includes_spec in I. rewrite I. reflexivity. }
    split; [exact E|].
    split; [apply orElse_cases|].
    split; [intros p Hp Ep; apply orElse_cases; assumption|].
    split; intros table; unfold routerCalls; rewrite E; cbn [callOf target].
    + apply last_snoc.
    + intros ->. reflexivity.
  - intros u token T. unfold unauthOnlyEffect, isAuthenticated.
    cbn [isAuthLoading isLoading user AUTH_TOKEN pathName orb]. rewrite T.
    reflexivity.
Qed.

Lemma authenticated_leaves_unauth_only_page_witness :
  let h := mkHooks (lit "redirect=%2Fadmin%2Fdashboard") (lit "/signin")
             (Some (mkAuthUser (Some [lit "user"]))) false (Some (lit "token")) false in
  unauthOnlyEffect pageAccessOnlyIfUnAuthenticated h
    = Done (mkDecision false (Some (lit "/admin/dashboard")) AUTH_ONLY_PAGE) /\
  routerCalls routeRoles pageAccessOnlyIfUnAuthenticated h
    = [Push (lit "/admin/dashboard")].
Proof.
  cbv zeta.
  pose proof (proj1 authenticated_leaves_unauth_only_page
                pageAccessOnlyIfUnAuthenticated
                (mkHooks (lit "redirect=%2Fadmin%2Fdashboard") (lit "/signin")
                   (Some (mkAuthUser (Some [lit "user"]))) false (Some (lit "token")) false)
                eq_refl eq_refl eq_refl (or_introl eq_refl)) as (E & _ & _ & _ & C).
  split; [exact E | apply C; reflexivity].
Defined.

(** C9, at a pattern whose base holds the marker.  The base of
    [/docs/*/edit/*] is [/docs/*/edit], yet [replace] drops the first
    marker and the callback tests the prefix [/docs/edit/*]: the path
    [/docs/*/edit/7] starts with the base and is rejected, the path
    [/docs/edit/*] does not start with the base and is accepted. *)
Theorem wildcard_base_with_marker :
  let route := mkRoute (lit "/docs/*/edit" ++ lit "/*") [lit "editor"] None None in
  replace (url route) (lit "/*") [] = lit "/docs/edit/*" /\
  (startsWith (lit "/docs/*/edit/7") (lit "/docs/*/edit") = true /\
   routeMatches (lit "/docs/*/edit/7") route = false) /\
  (startsWith (lit "/docs/edit/*") (lit "/docs/*/edit") = false /\
   routeMatches (lit "/docs/edit/*") route = true).
Proof. cbv zeta. repeat split; reflexivity. Qed.

(** Where the base holds no marker the callback is the bare prefix test,
    with no regard for path segments: [/administrator] is accepted by
    [/admin/*]. *)
Lemma wildcard_is_prefix_test :
  (forall b pathName rs rd na,
      ~ occursIn (lit "/*") b ->
      routeMatches pathName (mkRoute (b ++ lit "/*") rs rd na) = true <->
      exists rest, pathName = b ++ rest) /\
  (forall rs rd na,
      routeMatches (lit "/administrator") (mkRoute (lit "/admin/*") rs rd na) = true).
Proof.
  split.
  - intros b pathName rs rd na Hno.
    rewrite RouteFacts.routeMatches_wildcard by exact Hno.
    apply startsWith_spec.
  - intros. reflexivity.
Qed.

End GuardFacts.

(** ** Roles and permissions *)

Module PermissionFacts.

Import Permissions JSFacts.

Lemma someRoleGrants_true (table : gmap jsstring (list jsstring))
    (rs : list jsstring) (permission : jsstring) :
  someRoleGrants table rs permission = inr true ->
  exists r perms, In r rs /\ table !! r = Some perms /\ In permission perms.
Proof.
  induction rs as [|r rs IH]; cbn [someRoleGrants]; [discriminate|].
  destruct (table !! r) as [perms|] eqn:T; [|discriminate].
  destruct (includes perms permission) eqn:I.
  - intros _. exists r, perms. repeat split; [left; reflexivity | exact T |].
    apply includes_spec; exact I.
  - intros H. destruct (IH H) as (r' & perms' & Hin & T' & P).
    exists r', perms'. repeat split; [right|..]; assumption.
Qed.

Lemma someRoleGrants_known (table : gmap jsstring (list jsstring))
    (rs : list jsstring) (permission : jsstring) :
  knownRoles table rs ->
  someRoleGrants table rs permission =
  inr (existsb (fun r => match table !! r with
                         | Some perms => includes perms permission
                         | None => false
                         end) rs).
Proof.
  induction 1 as [|r rs [perms T] _ IH]; cbn [someRoleGrants existsb]; [reflexivity|].
  rewrite T. destruct (includes perms permission); [reflexivity | exact IH].
Qed.

(** The scan throws when it meets a role that is no key of the table
    before any role that grants the permission. *)
Lemma someRoleGrants_unknown (table : gmap jsstring (list jsstring))
    (pre post : list jsstring) (r permission : jsstring) :
  table !! r = None ->
  Forall (fun q => forall perms, table !! q = Some perms ->
                                 includes perms permission = false) pre ->
  someRoleGrants table (pre ++ r :: post) permission = inl TypeError.
Proof.
  intros T. induction 1 as [|q pre Hq _ IH]; cbn [app someRoleGrants].
  - rewrite T. reflexivity.
  - destruct (table !! q) as [perms|]; [|reflexivity].
    rewrite (Hq perms eq_refl). exact IH.
Qed.

(** C7, amended.  A role that is no key of [ROLES] is never taken as
    a role without permissions: for a user holding such a role, with no
    role listed before it that grants the permission, [hasPermission]
    throws.  The exception is the TypeError of calling [includes] on
    [undefined]; the code has no error of its own for an unknown role. *)
Theorem unknown_role_throws (pre post : list jsstring) (r permission i : jsstring) :
  ROLES !! r = None ->
  Forall (fun q => forall perms, ROLES !! q = Some perms ->
                                 includes perms permission = false) pre ->
  hasPermission (mkUser (pre ++ r :: post) i) permission = inl TypeError.
Proof. intros T H. apply someRoleGrants_unknown; assumption. Qed.

Lemma unknown_role_throws_witness :
  hasPermission (mkUser ([lit "user"] ++ lit "auditor" :: [lit "admin"]) (lit "7"))
                (lit "delete:comments") = inl TypeError.
Proof.
  apply unknown_role_throws; [vm_compute; reflexivity|].
  constructor; [|constructor].
  intros perms E. vm_compute in E. injection E as <-. vm_compute. reflexivity.
Defined.

(** C7, counterexample to a failure for every holder of an unknown
    role: a user holding the role [auditor],
    which is no key of [ROLES], after the role [admin] gets [true] for
    [delete:comments]; the call does not fail. *)
Lemma unknown_role_after_grant_is_ignored :
  let u := mkUser [lit "admin"; lit "auditor"] (lit "7") in
  ROLES !! lit "auditor" = None /\ In (lit "auditor") (roles u) /\
  hasPermission u (lit "delete:comments") = inr true /\
  hasPermission u (lit "delete:comments") <> inl TypeError.
Proof.
  cbv zeta.
  split; [vm_compute; reflexivity|].
  split; [right; left; reflexivity|].
  split; [vm_compute; reflexivity|].
  intros E. vm_compute in E. discriminate E.
Qed.

(** C8.  [hasPermission] returns [true] only if a role of the user has
    the permission in [ROLES]; for a user whose roles are all keys of
    [ROLES] it returns a boolean, [true] exactly when some role of the
    user has the permission.  An [admin] may [delete:comments], a [user]
    may not. *)
Theorem hasPermission_iff_some_role_grants :
  (forall u permission,
      hasPermission u permission = inr true ->
      exists r perms, In r (roles u) /\ ROLES !! r = Some perms /\ In permission perms) /\
  (forall u permission,
      knownRoles ROLES (roles u) ->
      (exists b, hasPermission u permission = inr b) /\
      (hasPermission u permission = inr true <->
       exists r perms, In r (roles u) /\ ROLES !! r = Some perms /\ In permission perms)) /\
  (forall i, hasPermission (mkUser [lit "admin"] i) (lit "delete:comments") = inr true) /\
  (forall i, hasPermission (mkUser [lit "user"] i) (lit "delete:comments") = inr false).
Proof.
  split; [|split; [|split]].
  - intros u permission. apply someRoleGrants_true.
  - intros u permission K. unfold hasPermission.
    split; [rewrite someRoleGrants_known by exact K; eauto|].
    split; [apply someRoleGrants_true|].
    intros (r & perms & Hin & T & P).
    rewrite someRoleGrants_known by exact K. f_equal.
    apply existsb_exists. exists r. split; [exact Hin|].
    rewrite T. apply includes_spec; exact P.
  - intros i. vm_compute. reflexivity.
  - intros i. vm_compute. reflexivity.
Qed.

Lemma hasPermission_iff_some_role_grants_witness :
  let u := mkUser [lit "user"; lit "moderator"] (lit "1") in
  (exists b, hasPermission u (lit "delete:comments") = inr b) /\
  (hasPermission u (lit "delete:comments") = inr true <->
   exists r perms, In r (roles u) /\ ROLES !! r = Some perms /\
                   In (lit "delete:comments") perms).
Proof.
  cbv zeta. apply (proj1 (proj2 hasPermission_iff_some_role_grants)).
  repeat constructor; vm_compute; eauto.
Defined.

End PermissionFacts.

(** ** Middleware chaining *)

Module MiddlewareFacts.

Import Middleware.

Section Chain.

Variables NextRequest NextFetchEvent NextResponse : Type.

Local Abbreviation Factory :=
  (MiddlewareFactory NextRequest NextFetchEvent NextResponse).

Lemma at_index_some (functions : list Factory) (index : Index) current :
  at_index functions index = Some current ->
  exists i, index = Integer i /\ 0 <= i /\ (Z.to_nat i < length functions)%nat.
Proof.
  destruct index as [i|]; [|discriminate]. unfold at_index.
  destruct (Z.ltb_spec i 0) as [|Hge]; [discriminate|].
  intros Hl. exists i. repeat split; [exact Hge|]. eapply lookup_lt_Some; exact Hl.
Qed.

Lemma remaining_decreases (functions : list Factory) (index : Index) current :
  at_index functions index = Some current ->
  (remaining functions (plusOne index) < remaining functions index)%nat.
Proof.
  intros A. apply at_index_some in A as (i & -> & H0 & Hlt).
  unfold remaining, plusOne.
  destruct (Z.ltb_spec i 0), (Z.ltb_spec (i + 1) 0); lia.
Qed.

Lemma chain_returns (functions : list Factory) (n : nat) :
  forall index, remaining functions index = n ->
  exists m, forall depth, (n < depth)%nat ->
                          chainMiddleware depth functions index = Some m.
Proof.
  induction n as [n IH] using lt_wf_ind. intros index R.
  destruct (at_index functions index) as [current|] eqn:A.
  - pose proof (remaining_decreases functions index current A) as D.
    destruct (IH (remaining functions (plusOne index)) ltac:(lia) (plusOne index) eq_refl)
      as [next Hnext].
    exists (current next). intros [|depth] Hd; [lia|].
    cbn [chainMiddleware]. rewrite A, Hnext by lia. reflexivity.
  - exists passThrough. intros [|depth] Hd; [lia|].
    cbn [chainMiddleware]. rewrite A. reflexivity.
Qed.

(** C10.  [chainMiddleware(functions, index)] returns for every array of
    factories and every index: the number of calls still to be made,
    [remaining], goes down at each recursive call, which passes
    [index + 1], and any depth beyond that number is enough.  Where
    [functions[index]] is [undefined], in particular for the empty array,
    the first call returns the middleware that hands back its response
    argument, whatever the request and the event. *)
Theorem chainMiddleware_returns :
  (forall (functions : list Factory) (index : Index),
      exists m, forall depth,
        (remaining functions index < depth)%nat ->
        chainMiddleware depth functions index = Some m) /\
  (forall (functions : list Factory) (index : Index) current,
      at_index functions index = Some current ->
      (remaining functions (plusOne index) < remaining functions index)%nat /\
      forall depth,
        chainMiddleware (S depth) functions index =
        option_map current (chainMiddleware depth functions (plusOne index))) /\
  (forall (functions : list Factory) (index : Index) depth,
      at_index functions index = None ->
      exists m, chainMiddleware (S depth) functions index = Some m /\
        forall request event response, m request event response = Value (Some response)) /\
  (forall (index : Index) depth,
      exists m, chainMiddleware (S depth) ([] : list Factory) index = Some m /\
        forall request event response, m request event response = Value (Some response)).
Proof.
  split; [|split; [|split]].
  - intros functions index. eapply chain_returns; reflexivity.
  - intros functions index current A. split; [eapply remaining_decreases; exact A|].
    intros depth. cbn [chainMiddleware]. rewrite A.
    destruct (chainMiddleware depth functions (plusOne index)); reflexivity.
  - intros functions index depth A. exists passThrough.
    cbn [chainMiddleware]. rewrite A. split; reflexivity.
  - intros index depth. exists passThrough. cbn [chainMiddleware].
    destruct index as [i|]; cbn [at_index]; [destruct (i <? 0)|]; split; reflexivity.
Qed.

End Chain.

(** Two factories in the manner of the article: a logger that passes
    the call on, and a gate that answers without a response when the
    request is [false]. *)
Lemma chainMiddleware_returns_witness :
  let logger : MiddlewareFactory bool unit nat :=
    fun next request event response => next request event response in
  let gate : MiddlewareFactory bool unit nat :=
    fun next request event response =>
      if request then next request event response else PromiseOf None in
  exists m, forall depth, (2 < depth)%nat ->
    chainMiddleware depth [logger; gate] (Integer 0) = Some m.
Proof.
  intros logger gate.
  exact (proj1 (chainMiddleware_returns bool unit nat) [logger; gate] (Integer 0)).
Defined.

End MiddlewareFacts.

(** ** More on the route table *)

Module RouteTableFacts.

Import RoleBaseRoute JSFacts.

Lemma occurs_unfold (pat s : jsstring) :
  occurs pat s =
  startsWith s pat || match s with [] => false | _ :: s' => occurs pat s' end.
Proof. destruct s; reflexivity. Qed.

Lemma occurs_spec (pat s : jsstring) : occurs pat s = true <-> occursIn pat s.
Proof.
  induction s as [|c s IH]; rewrite occurs_unfold, orb_true_iff.
  - split.
    + intros [H|H]; [|discriminate]. apply startsWith_spec in H as [t ->].
      exists [], t. reflexivity.
    + intros (pre & post & E). left. apply startsWith_spec.
      destruct pre; [|discriminate]. exists post. exact E.
  - rewrite IH. split.
    + intros [H|(pre & post & ->)].
      * apply startsWith_spec in H as [t ->]. exists [], t. reflexivity.
      * exists (c :: pre), post. reflexivity.
    + intros (pre & post & E). destruct pre as [|c' pre].
      * left. apply startsWith_spec. exists post. exact E.
      * right. injection E as _ ->. exists pre, post. reflexivity.
Qed.

Lemma occurs_false (pat s : jsstring) : occurs pat s = false -> ~ occursIn pat s.
Proof.
  intros H O. apply occurs_spec in O. congruence.
Qed.

Lemma endsWith_occurs (s p : jsstring) :
  endsWith s p = true -> occursIn p s.
Proof.
  unfold endsWith. rewrite andb_true_iff, Nat.leb_le.
  intros [L E]. apply strictEq_spec in E.
  exists (take (length s - length p) s), []. rewrite app_nil_r.
  transitivity (take (length s - length p) s ++ drop (length s - length p) s).
  - symmetry. apply take_drop.
  - f_equal. exact E.
Qed.

Lemma exact_route (route : RoleRoute) (pathName : jsstring) :
  ~ occursIn (lit "/*") (url route) ->
  routeMatches pathName route = true <-> pathName = url route.
Proof.
  intros Hno. unfold routeMatches.
  destruct (strictEq (url route) pathName) eqn:E.
  - apply strictEq_spec in E. split; auto.
  - apply strictEq_false in E.
    destruct (endsWith (url route) (lit "/*")) eqn:W.
    + destruct Hno. apply endsWith_occurs. exact W.
    + split; [discriminate | intros ->; contradiction].
Qed.

(** X1.  A route whose url holds no marker [/*] is an exact route: it
    accepts the path equal to its url and no other path, so neither a
    trailing slash nor a longer path gets it. *)
Theorem exact_route_accepts_only_its_url (route : RoleRoute) (pathName : jsstring) :
  occurs (lit "/*") (url route) = false ->
  routeMatches pathName route = true <-> pathName = url route.
Proof. intros Hno. apply exact_route, occurs_false, Hno. Qed.

Lemma exact_route_accepts_only_its_url_witness :
  routeMatches (lit "/pricing/") (mkRoute (lit "/pricing") [lit "user"] None None)
    = true <-> lit "/pricing/" = lit "/pricing".
Proof.
  apply (exact_route_accepts_only_its_url
           (mkRoute (lit "/pricing") [lit "user"] None None)).
  vm_compute. reflexivity.
Defined.

Lemma find_before {A} (f : A -> bool) (pre post : list A) (w : A) :
  f w = true ->
  exists r, List.find f (pre ++ w :: post) = Some r /\ In r (pre ++ [w]).
Proof.
  intros Hw. induction pre as [|a pre (r & E & I)]; simpl.
  - rewrite Hw. exists w. split; [reflexivity | left; reflexivity].
  - destruct (f a) eqn:Fa.
    + exists a. split; [reflexivity | left; reflexivity].
    + exists r. split; [exact E | right; exact I].
Qed.

(** X2.  A wildcard route hides every route declared after it whose url
    starts with the wildcard's base: when a path is accepted by such a
    later route (exact, or a wildcard with a longer base), the route
    selected is the wide wildcard or one declared before it. *)
Theorem wide_wildcard_hides_later_routes (b x : jsstring) rs rd na
    (narrow : RoleRoute) (pre post : list RoleRoute) (pathName : jsstring) :
  occurs (lit "/*") (b ++ x) = false ->
  url narrow = b ++ x \/ url narrow = (b ++ x) ++ lit "/*" ->
  routeMatches pathName narrow = true ->
  exists r,
    currentRoute (pre ++ mkRoute (b ++ lit "/*") rs rd na :: post) pathName = Some r /\
    In r (pre ++ [mkRoute (b ++ lit "/*") rs rd na]) /\
    (~ In narrow (pre ++ [mkRoute (b ++ lit "/*") rs rd na]) -> r <> narrow).
Proof.
  intros Hno Hurl M.
  assert (Hb : ~ occursIn (lit "/*") b).
  { intros (p & q & ->). apply occurs_false in Hno. apply Hno.
    exists p, (q ++ x). now rewrite <- !app_assoc. }
  assert (S : startsWith pathName b = true).
  { apply startsWith_spec. destruct Hurl as [U|U].
    - apply exact_route in M; [|rewrite U; apply occurs_false; exact Hno].
      exists x. congruence.
    - destruct narrow as [u rs' rd' na']. simpl in U. subst u.
      rewrite RouteFacts.routeMatches_wildcard in M
        by (apply occurs_false; exact Hno).
      apply startsWith_spec in M as [t ->]. exists (x ++ t).
      now rewrite <- app_assoc. }
  destruct (find_before (routeMatches pathName) pre post
              (mkRoute (b ++ lit "/*") rs rd na)) as (r & E & I).
  { rewrite RouteFacts.routeMatches_wildcard by exact Hb. exact S. }
  exists r. split; [exact E|]. split; [exact I|].
  intros Hn ->. contradiction.
Qed.

Lemma wide_wildcard_hides_later_routes_witness :
  let wide := mkRoute (lit "/admin" ++ lit "/*") [lit "superadmin"] None (Some true) in
  let narrow := mkRoute (lit "/admin/billing/*") [lit "billing"] None (Some true) in
  exists r,
    currentRoute ([] ++ wide :: [narrow]) (lit "/admin/billing/invoice") = Some r /\
    In r ([] ++ [wide]) /\
    (~ In narrow ([] ++ [wide]) -> r <> narrow).
Proof.
  cbv zeta.
  apply (wide_wildcard_hides_later_routes (lit "/admin") (lit "/billing")).
  - vm_compute. reflexivity.
  - right. reflexivity.
  - vm_compute. reflexivity.
Defined.

(** X3.  Routes added at the end of the table never change the route
    of a path that the table already places: the lookup in [t1 ++ t2] is
    the lookup in [t1] where it finds a route, and the lookup in [t2]
    elsewhere. *)
Theorem currentRoute_of_appended_table (t1 t2 : list RoleRoute) (pathName : jsstring) :
  currentRoute (t1 ++ t2) pathName =
  match currentRoute t1 pathName with
  | Some r => Some r
  | None => currentRoute t2 pathName
  end.
Proof.
  unfold currentRoute. induction t1 as [|a t1 IH]; simpl; [reflexivity|].
  destruct (routeMatches pathName a); [reflexivity | exact IH].
Qed.

End RouteTableFacts.

(** ** More on the verdicts of the guard *)

Module VerdictFacts.

Import RoleBaseRoute JSFacts.

(** X4.  For an authenticated visitor on a listed route, the guard lets
    the page through exactly when the visitor holds one of the roles of
    the route; a route without roles, or a user without roles, is always
    refused. *)
Theorem authenticated_allowed_iff_role (table : list RoleRoute) (h : Hooks)
    (route : RoleRoute) :
  isAuthLoading h = false ->
  currentRoute table (pathName h) = Some route ->
  isAuthenticated h = true ->
  (guardEffect table h = Done allow <->
   exists r, In r (role route) /\ In r (userRoles h)) /\
  (role route = [] \/ userRoles h = [] -> guardEffect table h <> Done allow).
Proof.
  intros L C A.
  assert (E : guardEffect table h =
              if hasRequiredRole route h then Done allow
              else Done (deny (orElse (redirect route) (lit "/")) MISSING_ROLE)).
  { unfold guardEffect. rewrite L, C, A. cbn [negb]. rewrite andb_false_r.
    destruct (hasRequiredRole route h); reflexivity. }
  assert (I : guardEffect table h = Done allow <->
              exists r, In r (role route) /\ In r (userRoles h)).
  { rewrite E, <- GuardFacts.hasRequiredRole_spec.
    destruct (hasRequiredRole route h); split; (reflexivity || discriminate). }
  split; [exact I|].
  intros H G. apply I in G as (r & Hr & Hu).
  destruct H as [H|H]; [rewrite H in Hr | rewrite H in Hu]; contradiction.
Qed.

Lemma authenticated_allowed_iff_role_witness :
  let h := mkHooks [] (lit "/contact/form")
             (Some (mkAuthUser (Some [lit "guest"; lit "user"])))
             false (Some (lit "token")) false in
  guardEffect routeRoles h = Done allow.
Proof.
  intros h.
  refine (proj2 (proj1 (authenticated_allowed_iff_role routeRoles h
            (mkRoute (lit "/contact/*")
               [lit "anonymous"; lit "user"; lit "admin"; lit "superadmin"] None None)
            eq_refl eq_refl eq_refl)) _).
  exists (lit "user"). simpl. auto.
Defined.

(** X5.  The roles of a route bind authenticated visitors only: on a
    route that does not ask for authentication, a visitor who is not
    authenticated passes, whatever the roles of the route and whatever
    roles the user object carries. *)
Theorem unauthenticated_passes_open_route (table : list RoleRoute) (h : Hooks)
    (route : RoleRoute) :
  isAuthLoading h = false ->
  currentRoute table (pathName h) = Some route ->
  needAuth route <> Some true ->
  isAuthenticated h = false ->
  guardEffect table h = Done allow.
Proof.
  intros L C N A. unfold guardEffect. rewrite L, C, A.
  destruct (needAuth route) as [[|]|]; [congruence | reflexivity | reflexivity].
Qed.

Lemma unauthenticated_passes_open_route_witness :
  guardEffect
    [mkRoute (lit "/reports/*") [lit "superadmin"] None (Some false)]
    (mkHooks [] (lit "/reports/2024") None false None false)
  = Done allow.
Proof.
  apply (unauthenticated_passes_open_route _ _
           (mkRoute (lit "/reports/*") [lit "superadmin"] None (Some false)));
    try reflexivity.
  discriminate.
Defined.

Lemma encode_fails_iff (s : jsstring) :
  forallb URI.isCodeUnit s = true ->
  URI.encodeURIComponent s = None <-> URI.isWellFormed s = false.
Proof.
  assert (M : forall {A B} (f : A -> B) (o : option A),
             option_map f o = None <-> o = None)
    by (intros A B f [a|]; simpl; split; congruence).
  assert (H : forall n s, (length s <= n)%nat -> forallb URI.isCodeUnit s = true ->
              URI.encodeURIComponent s = None <-> URI.isWellFormed s = false).
  { clear s. induction n as [|n IH]; intros [|c s] Ln U; simpl in Ln; try lia;
      try (simpl; split; discriminate).
    cbn [forallb] in U. apply andb_true_iff in U as [Uc U].
    cbn [URI.encodeURIComponent URI.isWellFormed].
    destruct (URI.unescaped c) eqn:Un.
    - apply URIFacts.unescaped_ascii in Un as [R _].
      assert (Lc : URI.isLeadingSurrogate c = false).
      { apply not_true_iff_false. rewrite URIFacts.isLeadingSurrogate_spec. lia. }
      assert (Tc : URI.isTrailingSurrogate c = false).
      { apply not_true_iff_false. rewrite URIFacts.isTrailingSurrogate_spec. lia. }
      rewrite Lc, Tc, Uc, M. cbn [negb andb]. apply IH; [lia | exact U].
    - destruct (URI.isLeadingSurrogate c) eqn:Lc.
      + destruct s as [|d s]; [split; reflexivity|].
        cbn [forallb] in U. apply andb_true_iff in U as [_ U].
        destruct (URI.isTrailingSurrogate d); cbn [andb].
        * rewrite M. apply IH; [simpl in Ln; lia | exact U].
        * split; reflexivity.
      + destruct (URI.isTrailingSurrogate c); rewrite Uc; cbn [negb andb].
        * split; reflexivity.
        * rewrite M. apply IH; [lia | exact U]. }
  apply (H (length s)). lia.
Qed.

(** X6.  The guard throws in one situation only: the visitor is not
    authenticated, the current route asks for authentication, and the
    path holds a lone surrogate, which [encodeURIComponent] rejects.  An
    authenticated visitor, and a well-formed path, never make it throw. *)
Theorem guard_throws_iff (table : list RoleRoute) (h : Hooks) :
  forallb URI.isCodeUnit (pathName h) = true ->
  guardEffect table h = URIError <->
  isAuthLoading h = false /\
  (exists route, currentRoute table (pathName h) = Some route /\
                 needAuth route = Some true) /\
  isAuthenticated h = false /\
  URI.isWellFormed (pathName h) = false.
Proof.
  intros U. pose proof (encode_fails_iff (pathName h) U) as F.
  unfold guardEffect.
  destruct (isAuthLoading h); [split; [discriminate | intros [? _]; discriminate]|].
  destruct (currentRoute table (pathName h)) as [route|];
    [|split; [discriminate | intros (_ & (r & ? & _) & _); discriminate]].
  destruct (needAuth route) as [[|]|] eqn:N; cbn [andb];
    destruct (isAuthenticated h) eqn:A; cbn [negb andb];
    try (match goal with
         | |- context [hasRequiredRole route h] => destruct (hasRequiredRole route h)
         end);
    try (split; [discriminate | intros (_ & (r & [= <-] & Nr) & Ar & _); congruence]).
  destruct (URI.encodeURIComponent (pathName h)) as [e|].
  - split; [discriminate|]. intros (_ & _ & _ & W).
    apply F in W. discriminate.
  - split; [|reflexivity]. intros _. repeat split; [eauto | apply F; reflexivity].
Qed.

Lemma guard_throws_iff_witness :
  guardEffect routeRoles
    (mkHooks [] (lit "/admin/" ++ [0xD83D]) None false None false) = URIError.
Proof.
  apply guard_throws_iff; [vm_compute; reflexivity|].
  repeat split; try (vm_compute; reflexivity).
  exists (mkRoute (lit "/admin/*") [lit "superadmin"] None (Some true)).
  split; vm_compute; reflexivity.
Defined.

(** X7.  The verdict does not decide what is rendered: once the guard
    effect has run to a verdict and the loader delay is over, the
    component returns its children, for a refused visitor as for any
    other; while authentication is loading it returns the preloader and
    no effect calls the router. *)
Theorem children_rendered_whatever_the_verdict (table : list RoleRoute)
    (pages : list jsstring) (h : Hooks) :
  (forall d, guardEffect table h = Done d -> isLoading h = false ->
             render h = Children) /\
  (isAuthLoading h = true ->
   render h = PreLoader /\ routerCalls table pages h = []).
Proof.
  split.
  - intros d G L. unfold guardEffect in G. unfold render.
    destruct (isAuthLoading h); [discriminate|]. rewrite L. reflexivity.
  - intros L. unfold render, routerCalls, guardEffect, unauthOnlyEffect.
    rewrite L. split; reflexivity.
Qed.

Lemma children_rendered_whatever_the_verdict_witness :
  let h := mkHooks [] (lit "/admin/dashboard") None false None false in
  guardEffect routeRoles h =
    Done (deny (lit "/signin?redirect=%2Fadmin%2Fdashboard") NOT_AUTHENTICATED) /\
  render h = Children.
Proof.
  cbv zeta. split; [vm_compute; reflexivity|].
  apply (proj1 (children_rendered_whatever_the_verdict routeRoles
                  pageAccessOnlyIfUnAuthenticated _)
           (deny (lit "/signin?redirect=%2Fadmin%2Fdashboard") NOT_AUTHENTICATED));
    vm_compute; reflexivity.
Defined.

(** X17.  A visitor in order is left alone: authenticated, holding a
    role of the current route, on a page that is not for unauthenticated
    visitors only, and with loading over, the run calls the router not
    once and the children are rendered. *)
Theorem authorized_visitor_is_left_alone (table : list RoleRoute)
    (pages : list jsstring) (h : Hooks) (route : RoleRoute) :
  isAuthLoading h = false -> isLoading h = false ->
  currentRoute table (pathName h) = Some route ->
  isAuthenticated h = true ->
  (exists r, In r (role route) /\ In r (userRoles h)) ->
  ~ In (pathName h) pages ->
  routerCalls table pages h = [] /\ render h = Children.
Proof.
  intros L L' C A S N.
  apply GuardFacts.hasRequiredRole_spec in S.
  assert (I : includes pages (pathName h) = false).
  { apply not_true_iff_false. rewrite includes_spec. exact N. }
  unfold routerCalls, render, guardEffect, unauthOnlyEffect.
  rewrite L, L', C, A, S, I. cbn [negb andb orb].
  rewrite andb_false_r. split; reflexivity.
Qed.

Lemma authorized_visitor_is_left_alone_witness :
  let h := mkHooks [] (lit "/admin/users")
             (Some (mkAuthUser (Some [lit "user"; lit "superadmin"])))
             false (Some (lit "token")) false in
  routerCalls routeRoles pageAccessOnlyIfUnAuthenticated h = [] /\
  render h = Children.
Proof.
  intros h.
  apply (authorized_visitor_is_left_alone routeRoles pageAccessOnlyIfUnAuthenticated h
           (mkRoute (lit "/admin/*") [lit "superadmin"] None (Some true)));
    try reflexivity.
  - exists (lit "superadmin"). simpl. auto.
  - simpl. intros [E|[E|[E|[E|[]]]]]; discriminate E.
Defined.

End VerdictFacts.

(** ** The way to the sign-in page and back *)

Module SignInFacts.

Import RoleBaseRoute JSFacts URI.

Lemma utf8Encode_ascii_app (a r : jsstring) :
  Forall (fun c => 0 <= c < 0x80) a -> utf8Encode (a ++ r) = a ++ utf8Encode r.
Proof.
  induction 1 as [|c a Hc _ IH]; [reflexivity|].
  cbn [app utf8Encode]. rewrite IH.
  unfold isLeadingSurrogate, isTrailingSurrogate, utf8Octets.
  destruct (Z.leb_spec 0xD800 c); [lia|]. cbn [andb].
  destruct (Z.leb_spec 0xDC00 c); [lia|]. cbn [andb].
  destruct (Z.ltb_spec c 0x80); [reflexivity | lia].
Qed.

Lemma splitOn_first (sep : Z) (a r : list Z) :
  Forall (fun b => b <> sep) a -> splitOn sep (a ++ sep :: r) = a :: splitOn sep r.
Proof.
  induction 1 as [|b a Hb _ IH]; cbn [app splitOn].
  - rewrite Z.eqb_refl. reflexivity.
  - rewrite IH. destruct (Z.eqb_spec b sep); [contradiction | reflexivity].
Qed.

(** The one tuple of the sequence [redirect=e]. *)
Lemma redirect_tuple (e : jsstring) :
  Forall plain e ->
  (let '(n, v) := splitAtEquals (lit "redirect=" ++ e) in [(formDecode n, formDecode v)])
  = [(lit "redirect", utf8Decode (percentDecode e))].
Proof.
  intros P.
  change (lit "redirect=" ++ e) with (lit "redirect" ++ 61 :: e).
  rewrite URIFacts.splitAtEquals_found.
  2:{ change (lit "redirect") with [114; 101; 100; 105; 114; 101; 99; 116].
      repeat constructor; lia. }
  change (formDecode (lit "redirect")) with (lit "redirect").
  unfold formDecode. rewrite URIFacts.plusToSpace_absent; [reflexivity|].
  apply URIFacts.Forall_plain; [lia | exact P].
Qed.

Lemma redirect_prefix_ascii (e : jsstring) :
  Forall plain e ->
  Forall (fun c => 0 <= c < 0x80 /\ c <> 38) (lit "redirect=" ++ e).
Proof.
  intros P. apply Forall_app; split.
  - change (lit "redirect=") with [114; 101; 100; 105; 114; 101; 99; 116; 61].
    repeat constructor; lia.
  - apply URIFacts.Forall_plain; [lia | exact P].
Qed.

Lemma parse_redirect_then (e rest : jsstring) :
  Forall plain e ->
  parseUrlencoded (utf8Encode (lit "redirect=" ++ e ++ 38 :: rest)) =
  (lit "redirect", utf8Decode (percentDecode e)) :: parseUrlencoded (utf8Encode rest).
Proof.
  intros P. pose proof (redirect_prefix_ascii e P) as A.
  unfold parseUrlencoded.
  rewrite app_assoc, utf8Encode_ascii_app
    by (eapply List.Forall_impl; [|exact A]; simpl; lia).
  cbn [utf8Encode].
  change (isLeadingSurrogate 38) with false. change (isTrailingSurrogate 38) with false.
  change (utf8Octets 38) with [38]. cbn [app].
  rewrite splitOn_first by (eapply List.Forall_impl; [|exact A]; simpl; lia).
  cbn [flat_map].
  change (lit "redirect=" ++ e) with (114 :: (lit "edirect=" ++ e)) at 1.
  cbv iota. change (114 :: (lit "edirect=" ++ e)) with (lit "redirect=" ++ e).
  rewrite redirect_tuple by exact P. reflexivity.
Qed.

Lemma parse_redirect_only (e : jsstring) :
  Forall plain e ->
  parseUrlencoded (utf8Encode (lit "redirect=" ++ e)) =
  [(lit "redirect", utf8Decode (percentDecode e))].
Proof.
  intros P. pose proof (redirect_prefix_ascii e P) as A.
  unfold parseUrlencoded.
  rewrite URIFacts.utf8Encode_ascii
    by (eapply List.Forall_impl; [|exact A]; simpl; lia).
  rewrite URIFacts.splitOn_absent
    by (eapply List.Forall_impl; [|exact A]; simpl; lia).
  cbn [flat_map].
  change (lit "redirect=" ++ e) with (114 :: (lit "edirect=" ++ e)) at 1.
  cbv iota. change (114 :: (lit "edirect=" ++ e)) with (lit "redirect=" ++ e).
  rewrite redirect_tuple by exact P. reflexivity.
Qed.

(** A refusal for want of authentication comes with the sign-in URL of
    the path. *)
Lemma not_authenticated_target (table : list RoleRoute) (h : Hooks) (u : jsstring) :
  guardEffect table h = Done (deny u NOT_AUTHENTICATED) ->
  exists e, encodeURIComponent (pathName h) = Some e /\
            u = lit "/signin?redirect=" ++ e.
Proof.
  unfold guardEffect.
  destruct (isAuthLoading h); [discriminate|].
  destruct (currentRoute table (pathName h)) as [route|]; [|discriminate].
  destruct (match needAuth route with Some b => b | None => false end
            && negb (isAuthenticated h)).
  - destruct (encodeURIComponent (pathName h)) as [e|]; [|discriminate].
    intros [= <-]. exists e. split; reflexivity.
  - destruct (isAuthenticated h); [|discriminate].
    destruct (negb (hasRequiredRole route h)); discriminate.
Qed.

(** X8.  Redirect after login, end to end.  A visitor refused for want
    of authentication on a well-formed, non-empty path is sent to a
    sign-in URL; any later run on a page for unauthenticated visitors
    only, with the query of that URL and an authenticated user, pushes
    the path first asked for. *)
Theorem back_to_requested_page_after_login (table : list RoleRoute)
    (pages : list jsstring) (h : Hooks) (route : RoleRoute) :
  isAuthLoading h = false ->
  currentRoute table (pathName h) = Some route ->
  needAuth route = Some true ->
  isAuthenticated h = false ->
  isWellFormed (pathName h) = true ->
  pathName h <> [] ->
  exists u,
    guardEffect table h = Done (deny u NOT_AUTHENTICATED) /\
    forall h' : Hooks,
      isAuthLoading h' = false -> isLoading h' = false ->
      isAuthenticated h' = true -> In (pathName h') pages ->
      searchParams h' = queryOf u ->
      unauthOnlyEffect pages h' = Done (deny (pathName h) AUTH_ONLY_PAGE).
Proof.
  intros L C N A W Hne.
  destruct (URIFacts.redirect_roundtrip (pathName h) W) as (e & E & R).
  exists (lit "/signin?redirect=" ++ e). split.
  - unfold guardEffect. rewrite L, C, N, A, E. reflexivity.
  - intros h' L1 L2 A' I Q. unfold unauthOnlyEffect, redirectTo.
    rewrite L1, L2, A', Q, R. apply includes_spec in I. rewrite I.
    destruct (pathName h); [contradiction | reflexivity].
Qed.

Lemma back_to_requested_page_after_login_witness :
  let h := mkHooks [] (lit "/admin/users?page=2&sort=name") None false None false in
  exists u,
    guardEffect routeRoles h = Done (deny u NOT_AUTHENTICATED) /\
    forall h' : Hooks,
      isAuthLoading h' = false -> isLoading h' = false ->
      isAuthenticated h' = true -> In (pathName h') pageAccessOnlyIfUnAuthenticated ->
      searchParams h' = queryOf u ->
      unauthOnlyEffect pageAccessOnlyIfUnAuthenticated h'
        = Done (deny (pathName h) AUTH_ONLY_PAGE).
Proof.
  intros h.
  apply (back_to_requested_page_after_login routeRoles pageAccessOnlyIfUnAuthenticated h
           (mkRoute (lit "/admin/*") [lit "superadmin"] None (Some true)));
    try reflexivity.
  discriminate.
Defined.

(** X9.  The requested path cannot add parameters to the sign-in URL:
    whatever reserved characters a well-formed path holds, the query of
    the URL the guard builds parses to the single parameter [redirect],
    with the path as its value. *)
Theorem sign_in_query_has_one_parameter (table : list RoleRoute) (h : Hooks)
    (u : jsstring) :
  isWellFormed (pathName h) = true ->
  guardEffect table h = Done (deny u NOT_AUTHENTICATED) ->
  parseUrlencoded (utf8Encode (queryOf u)) = [(lit "redirect", pathName h)].
Proof.
  intros W G. destruct (not_authenticated_target table h u G) as (e & E & ->).
  apply URIFacts.isWellFormed_sound in W.
  destruct (URIFacts.encode_decode (pathName h) W) as (e' & E' & P & D).
  assert (e' = e) by congruence. subst e'.
  change (queryOf (lit "/signin?redirect=" ++ e)) with (lit "redirect=" ++ e).
  rewrite parse_redirect_only by exact P. rewrite D. reflexivity.
Qed.

Lemma sign_in_query_has_one_parameter_witness :
  let h := mkHooks [] (lit "/admin/x&redirect=/evil?a=b#c") None false None false in
  parseUrlencoded
    (utf8Encode (queryOf (lit "/signin?redirect=%2Fadmin%2Fx%26redirect%3D%2Fevil%3Fa%3Db%23c")))
  = [(lit "redirect", pathName h)].
Proof.
  intros h.
  apply (sign_in_query_has_one_parameter routeRoles h); vm_compute; reflexivity.
Defined.

(** X10.  The sign-in URL tells the requested paths apart: two refusals
    for want of authentication with the same target were issued for the
    same path. *)
Theorem sign_in_target_determines_path (t1 t2 : list RoleRoute) (h1 h2 : Hooks)
    (u : jsstring) :
  isWellFormed (pathName h1) = true ->
  isWellFormed (pathName h2) = true ->
  guardEffect t1 h1 = Done (deny u NOT_AUTHENTICATED) ->
  guardEffect t2 h2 = Done (deny u NOT_AUTHENTICATED) ->
  pathName h1 = pathName h2.
Proof.
  intros W1 W2 G1 G2.
  destruct (not_authenticated_target t1 h1 u G1) as (e1 & E1 & U1).
  destruct (not_authenticated_target t2 h2 u G2) as (e2 & E2 & U2).
  destruct (URIFacts.redirect_roundtrip (pathName h1) W1) as (e1' & E1' & R1).
  destruct (URIFacts.redirect_roundtrip (pathName h2) W2) as (e2' & E2' & R2).
  assert (e1' = e1) by congruence. assert (e2' = e2) by congruence. subst e1' e2'.
  rewrite <- U1 in R1. rewrite <- U2 in R2. congruence.
Qed.

Lemma sign_in_target_determines_path_witness :
  pathName (mkHooks [] (lit "/admin/a b") None false None false) =
  pathName (mkHooks (lit "x=1") (lit "/admin/a b")
              (Some (mkAuthUser None)) false (Some []) true).
Proof.
  apply (sign_in_target_determines_path routeRoles
           [mkRoute (lit "/*") [] (Some (lit "/home")) (Some true)] _ _
           (lit "/signin?redirect=%2Fadmin%2Fa%20b"));
    vm_compute; reflexivity.
Defined.

(** X11.  Of several [redirect] parameters the first one counts: for a
    well-formed path escaped by [encodeURIComponent], the query
    [redirect=e&rest] gives the path as [redirectTo], whatever [rest]
    holds. *)
Theorem first_redirect_parameter_wins (path : jsstring) :
  isWellFormed path = true ->
  exists e,
    encodeURIComponent path = Some e /\
    forall (h : Hooks) (rest : jsstring),
      searchParams h = lit "redirect=" ++ e ++ lit "&" ++ rest ->
      redirectTo h = Some path.
Proof.
  intros W. apply URIFacts.isWellFormed_sound in W.
  destruct (URIFacts.encode_decode path W) as (e & E & P & D).
  exists e. split; [exact E|]. intros h rest Q.
  unfold redirectTo, searchParamsGet. rewrite Q.
  change (lit "&" ++ rest) with (38 :: rest).
  rewrite parse_redirect_then by exact P.
  cbn [List.find fst]. rewrite strictEq_refl, D. reflexivity.
Qed.

Lemma first_redirect_parameter_wins_witness :
  exists e,
    encodeURIComponent (lit "/admin/dashboard") = Some e /\
    forall (h : Hooks) (rest : jsstring),
      searchParams h = lit "redirect=" ++ e ++ lit "&" ++ rest ->
      redirectTo h = Some (lit "/admin/dashboard").
Proof.
  apply first_redirect_parameter_wins. vm_compute. reflexivity.
Defined.

End SignInFacts.

(** ** More on roles and permissions *)

Module RoleFacts.

Import Permissions JSFacts.

Lemma ROLES_entries (r : jsstring) (perms : list jsstring) :
  ROLES !! r = Some perms ->
  (r = lit "admin" /\
   perms = [lit "view:comments"; lit "create:comments";
            lit "update:comments"; lit "delete:comments"]) \/
  (r = lit "moderator" /\
   perms = [lit "view:comments"; lit "create:comments"; lit "delete:comments"]) \/
  (r = lit "user" /\ perms = [lit "view:comments"; lit "create:comments"]).
Proof.
  intros H. unfold ROLES in H. apply elem_of_list_to_map_2 in H.
  rewrite !elem_of_cons in H.
  destruct H as [[= -> ->]|[[= -> ->]|[[= -> ->]|H]]]; auto.
  apply elem_of_nil in H. contradiction.
Qed.

(** X12.  The roles are ranked: whatever permission [hasPermission]
    grants to any user at all, it grants to an [admin]; and whatever it
    grants to a [user], it grants to a [moderator]. *)
Theorem admin_holds_every_granted_permission :
  (forall u permission i,
      hasPermission u permission = inr true ->
      hasPermission (mkUser [lit "admin"] i) permission = inr true) /\
  (forall permission i j,
      hasPermission (mkUser [lit "user"] i) permission = inr true ->
      hasPermission (mkUser [lit "moderator"] j) permission = inr true).
Proof.
  assert (G : forall r perms permission,
             ROLES !! r = Some perms -> In permission perms ->
             (r = lit "user" ->
              someRoleGrants ROLES [lit "moderator"] permission = inr true) /\
             someRoleGrants ROLES [lit "admin"] permission = inr true).
  { intros r perms permission T P.
    destruct (ROLES_entries r perms T) as [[-> ->]|[[-> ->]|[-> ->]]];
      simpl in P; intuition (subst; (discriminate || (vm_compute; reflexivity))). }
  split.
  - intros u permission i H.
    apply PermissionFacts.someRoleGrants_true in H as (r & perms & _ & T & P).
    apply (G r perms permission T P).
  - intros permission i j H.
    apply PermissionFacts.someRoleGrants_true in H as (r & perms & I & T & P).
    destruct I as [<-|[]]. apply (G _ perms permission T P). reflexivity.
Qed.

Lemma admin_holds_every_granted_permission_witness :
  hasPermission (mkUser [lit "admin"] (lit "1")) (lit "delete:comments") = inr true.
Proof.
  apply (proj1 admin_holds_every_granted_permission
           (mkUser [lit "moderator"; lit "guest"] (lit "2"))).
  vm_compute. reflexivity.
Defined.

Lemma existsb_same_members {A} (f : A -> bool) (l1 l2 : list A) :
  (forall x, In x l1 <-> In x l2) -> existsb f l1 = existsb f l2.
Proof.
  intros H. apply eq_true_iff_eq. rewrite !existsb_exists.
  split; intros (x & I & F); exists x; split; try assumption; apply H; assumption.
Qed.

(** X13.  For a user whose roles are all keys of [ROLES], neither the
    order of the roles nor a role listed twice changes the answer: two
    such users holding the same roles get the same answer for every
    permission. *)
Theorem hasPermission_ignores_role_order (u1 u2 : User) (permission : jsstring) :
  knownRoles ROLES (roles u1) ->
  (forall r, In r (roles u1) <-> In r (roles u2)) ->
  hasPermission u1 permission = hasPermission u2 permission.
Proof.
  intros K S.
  assert (K2 : knownRoles ROLES (roles u2)).
  { unfold knownRoles in *. rewrite List.Forall_forall in *.
    intros r I. apply K, S, I. }
  unfold hasPermission.
  rewrite !PermissionFacts.someRoleGrants_known by assumption.
  f_equal. apply existsb_same_members. exact S.
Qed.

Lemma hasPermission_ignores_role_order_witness :
  hasPermission (mkUser [lit "user"; lit "admin"] (lit "1")) (lit "update:comments") =
  hasPermission (mkUser [lit "admin"; lit "user"; lit "admin"] (lit "2"))
                (lit "update:comments").
Proof.
  apply hasPermission_ignores_role_order.
  - repeat constructor; vm_compute; eauto.
  - intros r. simpl. tauto.
Defined.

(** X14.  Roles added at the end of a user's list never take a
    permission away, even roles that are no key of [ROLES]: the scan
    stops at the role that grants. *)
Theorem more_roles_keep_permission (rs extra : list jsstring)
    (permission i j : jsstring) :
  hasPermission (mkUser rs i) permission = inr true ->
  hasPermission (mkUser (rs ++ extra) j) permission = inr true.
Proof.
  unfold hasPermission. cbn [roles].
  induction rs as [|r rs IH]; cbn [app someRoleGrants]; [discriminate|].
  destruct (ROLES !! r) as [perms|]; [|discriminate].
  destruct (includes perms permission); [reflexivity | exact IH].
Qed.

Lemma more_roles_keep_permission_witness :
  hasPermission (mkUser ([lit "user"] ++ [lit "auditor"]) (lit "2"))
                (lit "create:comments") = inr true.
Proof.
  apply (more_roles_keep_permission [lit "user"] [lit "auditor"] _ (lit "1")).
  vm_compute. reflexivity.
Defined.

End RoleFacts.

(** ** More on middleware chaining *)

Module ChainFacts.

Import Middleware.

Section Chain.

Variables NextRequest NextFetchEvent NextResponse : Type.

Local Abbreviation Factory :=
  (MiddlewareFactory NextRequest NextFetchEvent NextResponse).
Local Abbreviation Handler :=
  (CustomMiddleware NextRequest NextFetchEvent NextResponse).

Lemma chain_nested (functions : list Factory) (depth : nat) :
  forall i, 0 <= i ->
  (remaining functions (Integer i) < depth)%nat ->
  chainMiddleware depth functions (Integer i) =
  Some (nested (drop (Z.to_nat i) functions) passThrough).
Proof.
  induction depth as [|depth IH]; intros i Hi R; [lia|].
  cbn [chainMiddleware at_index]. unfold remaining in R.
  destruct (Z.ltb_spec i 0); [lia|].
  destruct (functions !! Z.to_nat i) as [current|] eqn:A.
  - pose proof (lookup_lt_Some _ _ _ A) as Lt.
    cbn [plusOne]. rewrite IH.
    + replace (Z.to_nat (i + 1)) with (S (Z.to_nat i)) by lia.
      rewrite (drop_S _ _ _ A). reflexivity.
    + lia.
    + unfold remaining. destruct (Z.ltb_spec (i + 1) 0); lia.
  - apply lookup_ge_None in A. rewrite drop_ge by exact A. reflexivity.
Qed.

(** X15.  [chainMiddleware(functions, index)] nests the factories from
    [index] on, the first one outermost and the last one around the
    middleware that hands back the response; from the default index 0
    these are all the factories, and the chain of [fs ++ gs] is [fs]
    nested around the chain of [gs]. *)
Theorem chainMiddleware_nests_factories (functions : list Factory) (i : Z)
    (depth : nat) :
  0 <= i ->
  (remaining functions (Integer i) < depth)%nat ->
  chainMiddleware depth functions (Integer i) =
    Some (nested (drop (Z.to_nat i) functions) passThrough) /\
  (forall (fs gs : list Factory) d, (length (fs ++ gs) < d)%nat ->
     chainMiddleware d (fs ++ gs) (Integer 0) =
     Some (nested fs (nested gs passThrough))).
Proof.
  intros Hi R. split; [apply chain_nested; assumption|].
  intros fs gs d Hd. rewrite chain_nested; [|lia|unfold remaining; simpl; lia].
  change (Z.to_nat 0) with 0%nat. rewrite drop_0.
  unfold nested. rewrite fold_right_app. reflexivity.
Qed.

(** X16.  A middleware that answers a request by itself, without regard
    to [next], ends the chain for that request: the factories after it
    have no part in the result. *)
Theorem answering_middleware_ends_chain (f : Factory) (post : list Factory)
    (request : NextRequest) (event : NextFetchEvent) (response : NextResponse)
    (depth : nat) :
  (forall next1 next2 : Handler,
      f next1 request event response = f next2 request event response) ->
  (S (length post) < depth)%nat ->
  exists m,
    chainMiddleware depth (f :: post) (Integer 0) = Some m /\
    m request event response = f passThrough request event response.
Proof.
  intros Hf Hd. exists (nested (f :: post) passThrough). split.
  - rewrite chain_nested; [reflexivity | lia | unfold remaining; simpl; lia].
  - cbn [nested fold_right]. apply Hf.
Qed.

End Chain.

Lemma chainMiddleware_nests_factories_witness :
  let tag (n : nat) : MiddlewareFactory unit unit nat :=
    fun next request event response => next request event (n + response)%nat in
  let fs := [tag 1%nat; tag 2%nat; tag 3%nat] in
  chainMiddleware 4 fs (Integer 1) = Some (nested (drop (Z.to_nat 1) fs) passThrough).
Proof.
  intros tag fs.
  apply (chainMiddleware_nests_factories unit unit nat fs 1 4);
    [lia | vm_compute; lia].
Defined.

Lemma answering_middleware_ends_chain_witness :
  let gate : MiddlewareFactory bool unit nat :=
    fun next request event response =>
      if request then next request event response else PromiseOf None in
  let count : MiddlewareFactory bool unit nat :=
    fun next request event response => next request event (S response) in
  exists m,
    chainMiddleware 3 [gate; count] (Integer 0) = Some m /\
    m false tt 0%nat = gate passThrough false tt 0%nat.
Proof.
  intros gate count.
  apply (answering_middleware_ends_chain bool unit nat gate [count] false tt 0%nat 3).
  - intros next1 next2. reflexivity.
  - simpl. lia.
Defined.

End ChainFacts.

(** ** What the query can hand to the router *)

Module ReturnToFacts.

Import RoleBaseRoute JSFacts URI.

Lemma utf8Lead_invariant (b : Z) :
  Forall isScalar (fst (utf8Lead b)) /\ decoderState (snd (utf8Lead b)).
Proof.
  destruct (Z.lt_ge_cases b 0) as [N|N].
  { unfold utf8Lead. destruct (Z.leb_spec 0 b); [lia|]. cbn [andb].
    destruct (Z.leb_spec 0xC2 b); [lia|]. destruct (Z.leb_spec 0xE0 b); [lia|].
    destruct (Z.leb_spec 0xF0 b); [lia|]. cbn [andb fst snd].
    split; [constructor; [unfold isScalar; lia | constructor] | left; reflexivity]. }
  destruct (Z.le_gt_cases b 0x7F).
  { rewrite URIFacts.utf8Lead_ascii by lia. cbn [fst snd].
    split; [constructor; [unfold isScalar; lia | constructor] | left; reflexivity]. }
  destruct (Z.lt_ge_cases b 0xC2).
  { unfold utf8Lead. destruct (Z.leb_spec 0 b); [|lia].
    destruct (Z.leb_spec b 0x7F); [lia|]. cbn [andb].
    destruct (Z.leb_spec 0xC2 b); [lia|]. destruct (Z.leb_spec 0xE0 b); [lia|].
    destruct (Z.leb_spec 0xF0 b); [lia|]. cbn [andb fst snd].
    split; [constructor; [unfold isScalar; lia | constructor] | left; reflexivity]. }
  destruct (Z.le_gt_cases b 0xDF).
  { rewrite URIFacts.utf8Lead_two by lia. cbn [fst snd].
    split; [constructor | right; left; exists (b - 0xC0); split; [reflexivity | lia]]. }
  destruct (Z.le_gt_cases b 0xEF).
  { rewrite URIFacts.utf8Lead_three by lia. cbn [fst snd].
    split; [constructor|]. right; right; left.
    eexists _, _, _. split; [reflexivity|].
    destruct (Z.eqb_spec b 0xE0), (Z.eqb_spec b 0xED); lia. }
  destruct (Z.le_gt_cases b 0xF4).
  { rewrite URIFacts.utf8Lead_four by lia. cbn [fst snd].
    split; [constructor|]. right; right; right; right; left.
    eexists _, _, _. split; [reflexivity|].
    destruct (Z.eqb_spec b 0xF0), (Z.eqb_spec b 0xF4); lia. }
  unfold utf8Lead. destruct (Z.leb_spec 0 b); [|lia].
  destruct (Z.leb_spec b 0x7F); [lia|]. cbn [andb].
  destruct (Z.leb_spec 0xC2 b); [|lia]. destruct (Z.leb_spec b 0xDF); [lia|].
  cbn [andb]. destruct (Z.leb_spec 0xE0 b); [|lia].
  destruct (Z.leb_spec b 0xEF); [lia|]. cbn [andb].
  destruct (Z.leb_spec 0xF0 b); [|lia]. destruct (Z.leb_spec b 0xF4); [lia|].
  cbn [andb fst snd].
  split; [constructor; [unfold isScalar; lia | constructor] | left; reflexivity].
Qed.

(** A byte outside the expected range: an error, then the byte read
    again as a first byte. *)
Lemma utf8Step_restart (cp seen needed lo hi b : Z) :
  needed <> 0 -> b < lo \/ hi < b ->
  utf8Step (mkUtf8 cp seen needed lo hi) b =
  (0xFFFD :: fst (utf8Lead b), snd (utf8Lead b)).
Proof.
  intros Hn Hb. unfold utf8Step.
  cbn [bytesNeeded lowerBoundary upperBoundary].
  destruct (Z.eqb_spec needed 0); [contradiction|].
  destruct (Z.ltb_spec b lo), (Z.ltb_spec hi b); cbn [orb]; try lia;
    destruct (utf8Lead b); reflexivity.
Qed.

Lemma utf8Step_invariant (st : Utf8State) (b : Z) :
  decoderState st ->
  Forall isScalar (fst (utf8Step st b)) /\ decoderState (snd (utf8Step st b)).
Proof.
  assert (R : forall cp seen needed lo hi, needed <> 0 -> b < lo \/ hi < b ->
    Forall isScalar (fst (utf8Step (mkUtf8 cp seen needed lo hi) b)) /\
    decoderState (snd (utf8Step (mkUtf8 cp seen needed lo hi) b))).
  { intros. rewrite utf8Step_restart by assumption. cbn [fst snd].
    destruct (utf8Lead_invariant b) as [F D].
    split; [constructor; [unfold isScalar; lia | exact F] | exact D]. }
  intros [->|[(cp & -> & Hc)|[(cp & lo & hi & -> & Hc & Hlo & Hhi & H0 & H13)|
          [(cp & -> & Hc & Hs)|[(cp & lo & hi & -> & Hc & Hlo & Hhi & H0 & H4)|
          [(cp & -> & Hc)|(cp & -> & Hc)]]]]]].
  - rewrite URIFacts.utf8Step_lead. apply utf8Lead_invariant.
  - destruct (Z.lt_ge_cases b 0x80); [apply R; lia|].
    destruct (Z.lt_ge_cases 0xBF b); [apply R; lia|].
    rewrite URIFacts.utf8Step_last by lia. cbn [fst snd].
    split; [constructor; [unfold isScalar; lia | constructor] | left; reflexivity].
  - destruct (Z.lt_ge_cases b lo); [apply R; lia|].
    destruct (Z.lt_ge_cases hi b); [apply R; lia|].
    rewrite URIFacts.utf8Step_more by lia. cbn [fst snd].
    split; [constructor|]. right; right; right; left.
    eexists. split; [reflexivity | lia].
  - destruct (Z.lt_ge_cases b 0x80); [apply R; lia|].
    destruct (Z.lt_ge_cases 0xBF b); [apply R; lia|].
    rewrite URIFacts.utf8Step_last by lia. cbn [fst snd].
    split; [constructor; [unfold isScalar; lia | constructor] | left; reflexivity].
  - destruct (Z.lt_ge_cases b lo); [apply R; lia|].
    destruct (Z.lt_ge_cases hi b); [apply R; lia|].
    rewrite URIFacts.utf8Step_more by lia. cbn [fst snd].
    split; [constructor|]. right; right; right; right; right; left.
    eexists. split; [reflexivity | lia].
  - destruct (Z.lt_ge_cases b 0x80); [apply R; lia|].
    destruct (Z.lt_ge_cases 0xBF b); [apply R; lia|].
    rewrite URIFacts.utf8Step_more by lia. cbn [fst snd].
    split; [constructor|]. right; right; right; right; right; right.
    eexists. split; [reflexivity | lia].
  - destruct (Z.lt_ge_cases b 0x80); [apply R; lia|].
    destruct (Z.lt_ge_cases 0xBF b); [apply R; lia|].
    rewrite URIFacts.utf8Step_last by lia. cbn [fst snd].
    split; [constructor; [unfold isScalar; lia | constructor] | left; reflexivity].
Qed.

Lemma utf8DecodeFrom_scalars (bs : list Z) :
  forall st, decoderState st -> Forall isScalar (utf8DecodeFrom st bs).
Proof.
  induction bs as [|b bs IH]; intros st D; cbn [utf8DecodeFrom].
  - destruct (bytesNeeded st =? 0); [constructor|].
    constructor; [unfold isScalar; lia | constructor].
  - destruct (utf8Step_invariant st b D) as [F D'].
    destruct (utf8Step st b) as [out st']. cbn [fst snd] in *.
    apply Forall_app; split; [exact F | apply IH; exact D'].
Qed.

Lemma isWellFormed_codeUnitsOf (cp : Z) (s : jsstring) :
  isScalar cp -> isWellFormed (codeUnitsOf cp ++ s) = isWellFormed s.
Proof.
  intros Hs. unfold isScalar in Hs. unfold codeUnitsOf.
  destruct (Z.ltb_spec cp 0x10000); cbn [app isWellFormed];
    unfold isLeadingSurrogate, isTrailingSurrogate, isCodeUnit.
  - destruct (Z.leb_spec 0xD800 cp), (Z.leb_spec cp 0xDBFF),
             (Z.leb_spec 0xDC00 cp), (Z.leb_spec cp 0xDFFF),
             (Z.leb_spec 0 cp), (Z.ltb_spec cp 0x10000);
      cbn [andb negb]; try lia; reflexivity.
  - assert (0xD800 <= 0xD800 + (cp - 0x10000) / 0x400 <= 0xDBFF)
      by URIFacts.div_lia.
    assert (0xDC00 <= 0xDC00 + (cp - 0x10000) mod 0x400 <= 0xDFFF)
      by URIFacts.div_lia.
    destruct (Z.leb_spec 0xD800 (0xD800 + (cp - 0x10000) / 0x400)); [|lia].
    destruct (Z.leb_spec (0xD800 + (cp - 0x10000) / 0x400) 0xDBFF); [|lia].
    destruct (Z.leb_spec 0xDC00 (0xDC00 + (cp - 0x10000) mod 0x400)); [|lia].
    destruct (Z.leb_spec (0xDC00 + (cp - 0x10000) mod 0x400) 0xDFFF); [|lia].
    reflexivity.
Qed.

Lemma utf8Decode_wellFormed (bs : list Z) : isWellFormed (utf8Decode bs) = true.
Proof.
  unfold utf8Decode.
  pose proof (utf8DecodeFrom_scalars bs utf8Init (or_introl eq_refl)) as F.
  induction F as [|cp cps Hcp _ IH]; [reflexivity|].
  cbn [flat_map]. rewrite isWellFormed_codeUnitsOf by exact Hcp. exact IH.
Qed.

Lemma parseUrlencoded_wellFormed (bs : list Z) :
  Forall (fun nv => isWellFormed (fst nv) = true /\ isWellFormed (snd nv) = true)
         (parseUrlencoded bs).
Proof.
  unfold parseUrlencoded. induction (splitOn 38 bs) as [|seq seqs IH]; [constructor|].
  cbn [flat_map]. apply Forall_app; split; [|exact IH].
  destruct seq as [|c seq]; [constructor|].
  destruct (splitAtEquals (c :: seq)) as [n v].
  repeat constructor; apply utf8Decode_wellFormed.
Qed.

(** X18.  Whatever the query of the page holds (stray percent signs,
    bytes that are no UTF-8, lone surrogates), the [redirect] parameter
    read from it is a well-formed string, and so is the target pushed for
    an authenticated visitor of a page for unauthenticated visitors
    only. *)
Theorem pushed_target_is_well_formed (pages : list jsstring) (h : Hooks) :
  (forall p, redirectTo h = Some p -> isWellFormed p = true) /\
  (forall d u, unauthOnlyEffect pages h = Done d -> target d = Some u ->
               isWellFormed u = true).
Proof.
  assert (R : forall p, redirectTo h = Some p -> isWellFormed p = true).
  { intros p. unfold redirectTo, searchParamsGet.
    pose proof (parseUrlencoded_wellFormed (utf8Encode (searchParams h))) as F.
    destruct (List.find _ _) as [[n v]|] eqn:E; [|discriminate].
    apply List.find_some in E as [I _]. rewrite List.Forall_forall in F.
    intros [= <-]. apply (F _ I). }
  split; [exact R|].
  intros d u. unfold unauthOnlyEffect.
  destruct (isAuthLoading h || isLoading h); [discriminate|].
  destruct (isAuthenticated h && includes pages (pathName h)).
  - intros [= <-]. cbn [target deny]. intros [= <-].
    destruct (redirectTo h) as [[|c p]|] eqn:E; cbn [orElse]; try reflexivity.
    apply R. reflexivity.
  - intros [= <-]. discriminate.
Qed.

End ReturnToFacts.
